(** * Neighbourhood features and label propagation of the grain-boundary notebook

    A shallow embedding of the code cells of [analysis.ipynb]: the hash check
    cell, [get_nn_features], the interior/edge filter, the min-max rescaling
    and the pixel-wise label propagation.

    Numbers: in the feature cells a float64 is modelled as a real number or
    NaN ([float64]) with the exact arithmetic of [R]; the statements there
    are about counts, order, shapes, NaN and exceptions.  The rescaling,
    whose result depends on rounding, is also modelled in binary64
    ([MinMaxScaler64]).
    Exceptions: a computation that can raise returns a [result]. *)

From Stdlib Require Import String.
From Stdlib Require Import Reals Lra Lia List Arith Bool PeanoNat.
From Stdlib Require Import Permutation Sorted ZArith.
From Stdlib Require Floats.
Import ListNotations.
Open Scope R_scope.

(** ** Python exceptions *)

Inductive pyerr : Type :=
| ValueError
| IndexError.

Inductive result (A : Type) : Type :=
| Ok (a : A)
| Raise (e : pyerr).

Arguments Ok {A} a.
Arguments Raise {A} e.

Definition bind {A B : Type} (r : result A) (f : A -> result B) : result B :=
  match r with
  | Ok a => f a
  | Raise e => Raise e
  end.

Notation "x <- r ;; k" := (bind r (fun x => k))
  (at level 61, r at next level, right associativity).

(** A [for] loop that fills one output row per element: the first exception
    leaves the loop. *)
Fixpoint mapM {A B : Type} (f : A -> result B) (l : list A) : result (list B) :=
  match l with
  | [] => Ok []
  | a :: t => b <- f a ;; bs <- mapM f t ;; Ok (b :: bs)
  end.

(** ** The numpy operations the notebook calls *)

Module Np.

Inductive float64 : Type :=
| Fin (r : R)
| NaN.

Fixpoint sum (l : list R) : R :=
  match l with
  | [] => 0
  | x :: t => x + sum t
  end.

(** [np.mean]: the mean of an empty array is NaN (with a warning, no exception). *)
Definition mean (l : list R) : float64 :=
  match l with
  | [] => NaN
  | _ => Fin (sum l / INR (length l))
  end.

(** The population variance of a non-empty array. *)
Definition var (l : list R) : R :=
  let m := sum l / INR (length l) in
  sum (map (fun x => (x - m) * (x - m)) l) / INR (length l).

(** [np.std]: population standard deviation, NaN on an empty array. *)
Definition std (l : list R) : float64 :=
  match l with
  | [] => NaN
  | _ => Fin (sqrt (var l))
  end.

Fixpoint min_from (m : R) (l : list R) : R :=
  match l with
  | [] => m
  | x :: t => min_from (Rmin m x) t
  end.

Fixpoint max_from (m : R) (l : list R) : R :=
  match l with
  | [] => m
  | x :: t => max_from (Rmax m x) t
  end.

(** [np.min] / [ndarray.min]: a zero-size array has no minimum, ValueError. *)
Definition min (l : list R) : result R :=
  match l with
  | [] => Raise ValueError
  | x :: t => Ok (min_from x t)
  end.

Definition max (l : list R) : result R :=
  match l with
  | [] => Raise ValueError
  | x :: t => Ok (max_from x t)
  end.

Fixpoint insert (x : R) (l : list R) : list R :=
  match l with
  | [] => [x]
  | h :: t => if Rle_dec x h then x :: l else h :: insert x t
  end.

(** [np.sort], ascending. *)
Definition sort (l : list R) : list R := fold_right insert [] l.

(** [np.diff]: consecutive differences, one element fewer than the input. *)
Fixpoint diff (l : list R) : list R :=
  match l with
  | a :: ((b :: _) as t) => (b - a) :: diff t
  | _ => []
  end.

(** [np.array(obj, dtype)]: the second positional parameter of [np.array] is
    the dtype.  A float64 scalar is accepted there through its [dtype]
    attribute, so the array is [obj] as float64 and the value of the scalar is
    not used. *)
Definition array (obj : list R) (dtype : R) : list R := obj.

(** [np.linalg.norm] of one row of an (m, 2) array. *)
Definition norm (v : R * R) : R := sqrt (fst v * fst v + snd v * snd v).

(** [np.arctan2 y x], in (-pi, pi]. *)
Definition arctan2 (y x : R) : R :=
  if Rlt_dec 0 x then atan (y / x)
  else if Rlt_dec x 0 then
         if Rle_dec 0 y then atan (y / x) + PI else atan (y / x) - PI
       else if Rlt_dec 0 y then PI / 2
            else if Rlt_dec y 0 then - (PI / 2) else 0.

(** [a % m] for a positive modulus: [a - floor (a / m) * m]. *)
Definition mod_ (a m : R) : R := a - IZR (Int_part (a / m)) * m.

(** Integer-array indexing [arr[idx]]: IndexError when an index is out of
    bounds.  Indices are natural numbers here; no negative index occurs. *)
Definition take {A : Type} (arr : list A) (idx : list nat) : result (list A) :=
  mapM (fun j => match nth_error arr j with
                 | Some a => Ok a
                 | None => Raise IndexError
                 end) idx.

(** Boolean-mask indexing [arr[mask]]: keeps the rows whose mask entry is
    true, in order; IndexError when the mask has another length. *)
Definition mask_select {A : Type} (arr : list A) (mask : list bool) : result (list A) :=
  if Nat.eqb (length mask) (length arr)
  then Ok (map snd (filter fst (combine mask arr)))
  else Raise IndexError.

(** [arr >= c] on a float64 array; a comparison with NaN is false. *)
Definition ge (x : float64) (c : R) : bool :=
  match x with
  | Fin r => if Rle_dec c r then true else false
  | NaN => false
  end.

Fixpoint chunks {A : Type} (h w : nat) (l : list A) : list (list A) :=
  match h with
  | O => []
  | S h' => firstn w l :: chunks h' w (skipn w l)
  end.

(** [arr.reshape((h, w))] of a 1-D array, row-major. *)
Definition reshape {A : Type} (l : list A) (h w : nat) : result (list (list A)) :=
  if Nat.eqb (length l) (h * w) then Ok (chunks h w l) else Raise ValueError.

End Np.

(** ** scipy.spatial.cKDTree *)

Definition point : Type := (R * R)%type.

Definition sub_pt (a b : point) : point := (fst a - fst b, snd a - snd b).

Module KDTree.

(** The tree is modelled by the point array it indexes; a query is the
    exhaustive search the tree accelerates. *)
Record cKDTree : Type := mk { data : list point }.

Definition n (t : cKDTree) : nat := length (data t).

Definition dist_to (t : cKDTree) (x : point) (j : nat) : R :=
  Np.norm (sub_pt (nth j (data t) (0, 0)) x).

(** [distance_upper_bound]: [None] is the default, [np.inf]; a neighbour is
    returned only when its distance is strictly below the bound. *)
Definition within (ub : option R) (d : R) : bool :=
  match ub with
  | None => true
  | Some u => if Rlt_dec d u then true else false
  end.

Definition candidates (t : cKDTree) (ub : option R) (x : point) : list nat :=
  filter (fun j => within ub (dist_to t x j)) (seq 0 (n t)).

Fixpoint insert_by (key : nat -> R) (j : nat) (l : list nat) : list nat :=
  match l with
  | [] => [j]
  | h :: tl => if Rle_dec (key j) (key h) then j :: l else h :: insert_by key j tl
  end.

Definition sort_by (key : nat -> R) (l : list nat) : list nat :=
  fold_right (insert_by key) [] l.

(** One row of the index result: the (at most k) nearest points within the
    bound, nearest first, padded to length k with the sentinel [n t]. *)
Definition query_row (t : cKDTree) (k : nat) (ub : option R) (x : point) : list nat :=
  let found := firstn k (sort_by (dist_to t x) (candidates t ub x)) in
  found ++ repeat (n t) (k - length found).

(** The index part ([[1]]) of [tree.query(x, k, distance_upper_bound)]:
    shape (len x, k), and with k = 1 the last axis is squeezed.  k = 0 asks
    for no neighbour and is refused. *)
Inductive indices : Type :=
| Idx1 (l : list nat)
| Idx2 (rows : list (list nat)).

(** The squeezed result for k = 1, the default of [tree.query(x)]: one
    index per query point, the sentinel when no point is found. *)
Definition query_nearest (t : cKDTree) (ub : option R) (x : list point) : list nat :=
  map (fun p => hd (n t) (query_row t 1 ub p)) x.

Definition query (t : cKDTree) (x : list point) (k : nat) (ub : option R)
  : result indices :=
  match k with
  | O => Raise ValueError
  | 1%nat => Ok (Idx1 (query_nearest t ub x))
  | _ => Ok (Idx2 (map (query_row t k ub) x))
  end.

(** [idx[:, 1:]]: a 1-D array has no second axis, IndexError. *)
Definition drop_first_column (i : indices) : result (list (list nat)) :=
  match i with
  | Idx1 _ => Raise IndexError
  | Idx2 rows => Ok (map (@tl nat) rows)
  end.

End KDTree.

Import KDTree.

(** ** get_nn_features *)

Definition two_pi : R := 2 * PI.

(** Lines 365-367: the angles, their sorted copy and the increments.  The
    first angle plus 2 pi is evaluated and handed to [np.array] as its second
    argument. *)
Definition angle_increments (angles : list R) : result (list R) :=
  amin <- Np.min angles ;;
  let sorted_angles := Np.array (Np.sort angles) (amin + two_pi) in
  Ok (Np.diff sorted_angles).

(** Line 353, [nns[nns != coordinates.shape[0]]]: the filter that removes
    the index that stands for "no point". *)
Definition drop_sentinel (coordinates : list point) (nns : list nat) : list nat :=
  filter (fun j => negb (Nat.eqb j (length coordinates))) nns.

(** The body of the loop for one point: [nns] is its row of neighbour
    indices. *)
Definition nn_row (coordinates : list point) (point_index : nat) (nns : list nat)
  : result (list Np.float64) :=
  let nns := drop_sentinel coordinates nns in
  nn_coords <- Np.take coordinates nns ;;
  let point_coords := nth point_index coordinates (0, 0) in
  let difference_vectors := map (fun q => sub_pt q point_coords) nn_coords in
  let lengths := map Np.norm difference_vectors in
  let average_length := Np.mean lengths in
  let std_length := Np.std lengths in
  let angles :=
    map (fun v => Np.mod_ (Np.arctan2 (snd v) (fst v)) two_pi) difference_vectors in
  angle_increments <- angle_increments angles ;;
  let average_increment := Np.mean angle_increments in
  let std_increment := Np.std angle_increments in
  min_angle <- Np.min angles ;;
  let vertices := length nns in
  lengths_min <- Np.min lengths ;;
  lengths_max <- Np.max lengths ;;
  Ok [average_length; std_length; average_increment; std_increment;
      Np.Fin min_angle; Np.Fin (INR vertices);
      Np.Fin lengths_min; Np.Fin lengths_max].

Definition enumerate {A : Type} (l : list A) : list (nat * A) :=
  combine (seq 0 (length l)) l.

(** [tree_c] is the notebook's global index; [features] starts as
    [np.zeros((coordinates.shape[0], 8))] and every row is overwritten. *)
Definition get_nn_features (tree_c : cKDTree) (coordinates : list point)
  (max_distance : R) (k : nat) : result (list (list Np.float64)) :=
  idx <- query tree_c coordinates k (Some max_distance) ;;
  nearest_neighbor_indices <- drop_first_column idx ;;
  mapM (fun '(point_index, nns) => nn_row coordinates point_index nns)
       (enumerate nearest_neighbor_indices).

(** ** The cells after get_nn_features *)

(** [features[:, j]]. *)
Definition column (j : nat) (X : list (list Np.float64)) : list Np.float64 :=
  map (fun row => nth j row Np.NaN) X.

(** [off_edge = features[:,5] >= 5]. *)
Definition off_edge (features : list (list Np.float64)) : list bool :=
  map (fun x => Np.ge x 5) (column 5 features).

(** *** sklearn.preprocessing.MinMaxScaler, feature range (0, 1) *)

(** The scaler over the array type of the feature cells.  It follows
    sklearn's steps ([data_min_], [data_range_], [scale_], [min_], then
    [X *= scale_; X += min_]) and serves the statements about the shape of
    the result and about where NaN can appear; the values are those of
    arithmetic without rounding.  What rounding does to the values is the
    subject of [MinMaxScaler64] below. *)
Module MinMaxScaler.

Import Np.

Definition lift2 (f : R -> R -> R) (a b : float64) : float64 :=
  match a, b with
  | Fin x, Fin y => Fin (f x y)
  | _, _ => NaN
  end.

Definition finite_values (col : list float64) : list R :=
  flat_map (fun x => match x with Fin r => [r] | NaN => [] end) col.

(** [np.nanmin] / [np.nanmax] along a column: NaN entries are skipped, a
    column without a number gives NaN. *)
Definition nanmin (col : list float64) : float64 :=
  match Np.min (finite_values col) with Ok m => Fin m | Raise _ => NaN end.

Definition nanmax (col : list float64) : float64 :=
  match Np.max (finite_values col) with Ok m => Fin m | Raise _ => NaN end.

(** [np.finfo(np.float64).eps]. *)
Definition eps : R := / 2 ^ 52.

(** A range below 10 eps counts as constant and is replaced by 1 before the
    division. *)
Definition handle_zeros_in_scale (range : float64) : float64 :=
  match range with
  | Fin r => if Rlt_dec r (10 * eps) then Fin 1 else Fin r
  | NaN => NaN
  end.

(** [fit] on one column: the pair ([scale_], [min_]). *)
Definition fit_column (col : list float64) : float64 * float64 :=
  let data_min := nanmin col in
  let data_max := nanmax col in
  let data_range := lift2 Rminus data_max data_min in
  let scale_ := lift2 Rdiv (Fin 1) (handle_zeros_in_scale data_range) in
  let min_ := lift2 Rminus (Fin 0) (lift2 Rmult data_min scale_) in
  (scale_, min_).

(** [transform] on one entry: [X *= scale_; X += min_]. *)
Definition transform_entry (p : float64 * float64) (x : float64) : float64 :=
  lift2 Rplus (lift2 Rmult x (fst p)) (snd p).

Definition n_features (X : list (list float64)) : nat :=
  match X with
  | [] => O
  | row :: _ => length row
  end.

Definition fit (X : list (list float64)) : list (float64 * float64) :=
  map (fun j => fit_column (column j X)) (seq 0 (n_features X)).

Definition transform (params : list (float64 * float64)) (X : list (list float64))
  : list (list float64) :=
  map (fun row => map (fun '(p, x) => transform_entry p x) (combine params row)) X.

(** [fit_transform]: an array without samples or without features is
    refused with ValueError. *)
Definition fit_transform (X : list (list float64)) : result (list (list float64)) :=
  match X with
  | [] => Raise ValueError
  | [] :: _ => Raise ValueError
  | _ => Ok (transform (fit X) X)
  end.

End MinMaxScaler.

(** *** sklearn.decomposition.PCA *)

Module PCA.

Definition is_number (x : Np.float64) : bool :=
  match x with
  | Np.Fin _ => true
  | Np.NaN => false
  end.

(** [PCA(n_components).fit_transform(X)].  The notebook only plots the
    projection, so its value is left out; the run depends on whether the
    call raises: ValueError when the input holds a NaN or when
    [n_components] exceeds min(n_samples, n_features). *)
Definition fit_transform (n_components : nat) (X : list (list Np.float64))
  : result unit :=
  if forallb (forallb is_number) X
  then if (n_components <=? Nat.min (length X) (MinMaxScaler.n_features X))%nat
       then Ok tt
       else Raise ValueError
  else Raise ValueError.

End PCA.

(** *** The rescaling in the arithmetic of the code: binary64 *)

Module MinMaxScaler64.

Import Floats.

(** [np.finfo(np.float64).eps]. *)
Definition eps : float := 0x1p-52%float.

(** The entries that [np.nanmin] and [np.nanmax] look at. *)
Definition numbers (col : list float) : list float :=
  filter (fun x => negb (is_nan x)) col.

Fixpoint min_from (m : float) (l : list float) : float :=
  match l with
  | [] => m
  | x :: t => min_from (if (x <? m)%float then x else m) t
  end.

Fixpoint max_from (m : float) (l : list float) : float :=
  match l with
  | [] => m
  | x :: t => max_from (if (m <? x)%float then x else m) t
  end.

Definition nanmin (col : list float) : float :=
  match numbers col with
  | [] => nan
  | x :: t => min_from x t
  end.

Definition nanmax (col : list float) : float :=
  match numbers col with
  | [] => nan
  | x :: t => max_from x t
  end.

Definition handle_zeros_in_scale (range : float) : float :=
  if (range <? 10 * eps)%float then 1%float else range.

(** [fit] on one column, feature range (0, 1): the pair ([scale_], [min_]). *)
Definition fit_column (col : list float) : float * float :=
  let data_min := nanmin col in
  let data_max := nanmax col in
  let data_range := (data_max - data_min)%float in
  let scale_ := (1 / handle_zeros_in_scale data_range)%float in
  let min_ := (0 - data_min * scale_)%float in
  (scale_, min_).

(** [transform] on one entry: [X *= scale_; X += min_]. *)
Definition transform_entry (p : float * float) (x : float) : float :=
  (x * fst p + snd p)%float.





End MinMaxScaler64.

(** *** Label propagation *)

(** [np.mgrid[0:h, 0:w]] raveled and stacked as (x, y) rows: the pixel
    (row y, column x) is entry [y * w + x]. *)
Definition pixel_coords (h w : nat) : list point :=
  flat_map (fun y => map (fun x => (INR x, INR y)) (seq 0 w)) (seq 0 h).

(** Lines 570-575; [shape] is [sub_image.shape]. *)
Definition labeled_image (filtered_coordinates : list point) (labels_ : list Z)
  (shape : nat * nat) : result (list (list Z)) :=
  let tree := mk filtered_coordinates in
  let coords := pixel_coords (fst shape) (snd shape) in
  let nearest_point := query_nearest tree None coords in
  classification <- Np.take labels_ nearest_point ;;
  Np.reshape classification (fst shape) (snd shape).

(** *** The hash check cell *)

Module HashCell.

Open Scope string_scope.

Definition expected_digest : string :=
  "777a5f480c5b10288bb9c83c12be440408e7dd25620adc56b5fad27bbfc65d05".

Record outcome : Type := mk_outcome { stdout : list string; exit_status : nat }.

(** Exit status of [[ $hash == digest ]]: [hash] is the first field that awk
    prints, so it holds no blank; when it is empty the unquoted expansion
    leaves a malformed test, status 2. *)
Definition test_status (hash : string) : nat :=
  if String.eqb hash "" then 2%nat
  else if String.eqb hash expected_digest then 0%nat else 1%nat.

(** The cell: [hash] is what [sha256sum data/dataset.emd | awk ...] printed.
    The status of the cell is the status of the [echo] that ran. *)
Definition hash_check (hash : string) : outcome :=
  if Nat.eqb (test_status hash) 0
  then mk_outcome ["Hash is ok"] 0
  else mk_outcome
         ["Wrong hash! This may be the wrong file, or it may have been tampered with."] 0.

(** A [%%bash] cell stops the run (CalledProcessError) only on a non-zero
    exit status. *)
Definition aborts_run (o : outcome) : bool := negb (Nat.eqb (exit_status o) 0).

End HashCell.

(** *** The pipeline from the positions to the label image *)

Section Pipeline.

(** [SpectralClustering(5).fit(X).labels_]: the clustering algorithm is
    sklearn's; its contract gives one label per sample. *)
Variable cluster_labels : list (list Np.float64) -> result (list Z).

(** [scaled_features[:, [1, 4, 5]]]. *)
Definition datafit (scaled_features : list (list Np.float64)) : list (list Np.float64) :=
  map (fun row => [nth 1 row Np.NaN; nth 4 row Np.NaN; nth 5 row Np.NaN])
      scaled_features.

Definition segment (atom_positions : list point) (shape : nat * nat)
  : result (list (list Z)) :=
  let columns := atom_positions in
  let tree_c := mk columns in
  features <- get_nn_features tree_c columns 11 10 ;;
  let mask := off_edge features in
  filtered_features <- Np.mask_select features mask ;;
  filtered_coordinates <- Np.mask_select atom_positions mask ;;
  scaled_features <- MinMaxScaler.fit_transform filtered_features ;;
  xy <- PCA.fit_transform 8 scaled_features ;;
  labels_ <- cluster_labels (datafit scaled_features) ;;
  xy <- PCA.fit_transform 2 (datafit scaled_features) ;;
  labeled_image filtered_coordinates labels_ shape.

End Pipeline.

(** ** Vocabulary of the statements *)

(** The number of points of [coordinates] other than point [i] that lie
    strictly within distance [r] of it. *)
Definition count_others (coordinates : list point) (r : R) (i : nat) : nat :=
  length (filter (fun j => negb (Nat.eqb j i) &&
                           within (Some r) (dist_to (mk coordinates) (nth i coordinates (0, 0)) j))
                 (seq 0 (length coordinates))).

(** Point [i] of [pts] is a nearest one to [x]. *)
Definition nearest_to (pts : list point) (x : point) (i : nat) : Prop :=
  (i < length pts)%nat /\
  forall j, (j < length pts)%nat -> dist_to (mk pts) x i <= dist_to (mk pts) x j.

(** Following the spec's words (sort the angles ascending, append the first
    angle plus 2 pi, take consecutive differences): the increments of the
    closed ring, to compare with [angle_increments]. *)
Definition wrapped_increments (angles : list R) : result (list R) :=
  amin <- Np.min angles ;;
  Ok (Np.diff (Np.sort angles ++ [amin + two_pi])).

(** Order of two indices by their sort key. *)
Definition le_key (key : nat -> R) (a b : nat) : Prop := key a <= key b.

(** The row indices a boolean mask keeps, ascending. *)
Definition selected (mask : list bool) : list nat :=
  filter (fun j => nth j mask false) (seq 0 (length mask)).

(** *** Concrete inputs *)

(** Six neighbour angles of a hexagonal ring: 0, 60, ..., 300 degrees. *)
Definition hex_angles : list R :=
  [0; PI / 3; 2 * (PI / 3); 3 * (PI / 3); 4 * (PI / 3); 5 * (PI / 3)].

(** Three points on a line, one unit apart. *)
Definition line3 : list point := [(0, 0); (1, 0); (2, 0)].

(** A single point: it has no neighbour at all. *)
Definition lonely : list point := [(0, 0)].

(** A clustering that puts every sample into cluster 0. *)
Definition one_cluster (X : list (list Np.float64)) : result (list Z) :=
  Ok (map (fun _ => 0%Z) X).

(** Feature rows of two interior points, with 5 and 6 neighbours. *)
Definition two_rows : list (list Np.float64) :=
  [ map Np.Fin [10; 1; 1; 0; 0; 5; 9; 11];
    map Np.Fin [12; 2; 1; 0; 1; 6; 9; 14] ].

(** ** Further cells of the notebook *)

(** *** Python slicing *)

Module Py.

(** One bound of [a[start:stop]] on a sequence of length [n]: a negative
    bound counts from the end, and the result is clipped to [0, n]. *)
Definition slice_bound (i : Z) (n : nat) : nat :=
  let i := if (i <? 0)%Z then (i + Z.of_nat n)%Z else i in
  if (i <? 0)%Z then O else Nat.min (Z.to_nat i) n.

(** [a[start:stop]]: the elements from the first bound up to the second,
    none when the second is not above the first. *)
Definition slice {A : Type} (a : list A) (start stop : Z) : list A :=
  let lo := slice_bound start (length a) in
  let hi := slice_bound stop (length a) in
  firstn (hi - lo) (skipn lo a).

End Py.

(** *** The sub-image (lines 251-256) *)

(** [data.shape] of a 2-D array given by its rows. *)
Definition shape {A : Type} (data : list (list A)) : nat * nat :=
  (length data, match data with [] => O | row :: _ => length row end).

(** [image.data[:, half_x-half_wx:half_y+half_wx]]: every row is kept and
    cut to the same column window. *)
Definition sub_image {A : Type} (data : list (list A)) : list (list A) :=
  let half_x := (Z.of_nat (snd (shape data)) / 2)%Z in
  let half_y := (Z.of_nat (fst (shape data)) / 2)%Z in
  let half_wx := 100%Z in
  map (fun row => Py.slice row (half_x - half_wx)%Z (half_y + half_wx)%Z) data.

(** *** The distance of the NN-th neighbour (lines 307-311) *)

Module KDDist.

(** A distance returned by the tree: missing neighbours are at [np.inf]. *)
Inductive distance : Type :=
| Finite (d : R)
| Infinite.

(** One row of the distance result: the distances of the points found,
    nearest first, padded to length k with infinity. *)
Definition query_row (t : cKDTree) (k : nat) (ub : option R) (x : point)
  : list distance :=
  let found := firstn k (sort_by (dist_to t x) (candidates t ub x)) in
  map (fun j => Finite (dist_to t x j)) found ++ repeat Infinite (k - length found).

(** The distance part ([[0]]) of [tree.query(x, k)], squeezed for k = 1 like
    the index part. *)
Inductive distances : Type :=
| Dist1 (l : list distance)
| Dist2 (rows : list (list distance)).

Definition query (t : cKDTree) (x : list point) (k : nat) (ub : option R)
  : result distances :=
  match k with
  | O => Raise ValueError
  | 1%nat => Ok (Dist1 (map (fun p => hd Infinite (query_row t 1 ub p)) x))
  | _ => Ok (Dist2 (map (query_row t k ub) x))
  end.

(** [d[:, c]]: a 1-D array has no second axis, and the column must exist. *)
Definition take_column (c : nat) (d : distances) : result (list distance) :=
  match d with
  | Dist1 _ => Raise IndexError
  | Dist2 rows =>
      mapM (fun row => match nth_error row c with
                       | Some v => Ok v
                       | None => Raise IndexError
                       end) rows
  end.

(** [tree_c.query(columns, k=NN+1)[0][:,NN]] with [tree_c = cKDTree(columns)]. *)
Definition nn_distance (columns : list point) (NN : nat) : result (list distance) :=
  let tree_c := mk columns in
  d <- query tree_c columns (NN + 1) None ;;
  take_column NN d.

End KDDist.

(** *** The points left out (line 541) *)

(** [sublattice.atom_positions[np.invert(off_edge)]]. *)
Definition not_classified (atom_positions : list point)
  (features : list (list Np.float64)) : result (list point) :=
  Np.mask_select atom_positions (map negb (off_edge features)).

(** *** Vocabulary of the further statements *)

(** A row of features whose entries are all numbers. *)
Definition finite_row (row : list Np.float64) : Prop :=
  Forall (fun e => exists x, e = Np.Fin x) row.

(** Entry [c] of a feature row is the number [x]. *)
Definition entry (row : list Np.float64) (c : nat) (x : R) : Prop :=
  nth_error row c = Some (Np.Fin x).

(** The neighbour count that [get_nn_features] reports for point [i]. *)
Definition reported (coordinates : list point) (r : R) (k i : nat) : nat :=
  Nat.min (k - 1) (count_others coordinates r i).

(** Six points on a line, one unit apart: within the radius 11 every one has
    the five others as neighbours. *)
Definition line6 : list point := [(0, 0); (1, 0); (2, 0); (3, 0); (4, 0); (5, 0)].

(** Eight points on a line, one unit apart: every one has the seven others
    within the radius 11. *)
Definition line8 : list point :=
  [(0, 0); (1, 0); (2, 0); (3, 0); (4, 0); (5, 0); (6, 0); (7, 0)].

(** The number of points with at least 5 other points strictly within [r]. *)
Definition interior_count (coordinates : list point) (r : R) : nat :=
  length (filter (fun i => (5 <=? count_others coordinates r i)%nat)
                 (seq 0 (length coordinates))).

(** A point moved by the vector [t]. *)
Definition shift (t p : point) : point := (fst p + fst t, snd p + snd t).

(** An image of [h] rows and [w] columns, all pixels 0. *)
Definition blank_image (h w : nat) : list (list Z) := repeat (repeat 0%Z w) h.

(** * Properties *)

(** ** Loops with exceptions *)

Lemma mapM_Forall2 {A B : Type} (f : A -> result B) (l : list A) (bs : list B) :
  mapM f l = Ok bs <-> Forall2 (fun a b => f a = Ok b) l bs.
Proof.
  revert bs. induction l as [|a t IH]; intros bs; simpl.
  - split; intros H.
    + injection H as <-. constructor.
    + inversion H. reflexivity.
  - split.
    + destruct (f a) as [b|e] eqn:Ea; simpl; [|discriminate].
      destruct (mapM f t) as [bs'|e] eqn:Et; simpl; [|discriminate].
      intros H. injection H as <-. constructor; [exact Ea|]. now apply IH.
    + intros H. inversion H as [|? b ? bs' Hab Ht]; subst.
      rewrite Hab. simpl. apply IH in Ht. rewrite Ht. reflexivity.
Qed.

Lemma mapM_length {A B : Type} (f : A -> result B) (l : list A) (bs : list B) :
  mapM f l = Ok bs -> length bs = length l.
Proof.
  intros H. apply mapM_Forall2 in H. symmetry. eapply Forall2_length; eauto.
Qed.

Lemma mapM_nth_error {A B : Type} (f : A -> result B) (l : list A) (bs : list B) :
  mapM f l = Ok bs ->
  forall i b, nth_error bs i = Some b ->
              exists a, nth_error l i = Some a /\ f a = Ok b.
Proof.
  intros H. apply mapM_Forall2 in H.
  induction H as [|a b0 l' bs' Hab _ IH]; intros i b Hi.
  - destruct i; discriminate.
  - destruct i as [|i]; simpl in *.
    + injection Hi as <-. eauto.
    + eauto.
Qed.

Lemma mapM_total {A B : Type} (f : A -> result B) (l : list A) :
  Forall (fun a => exists b, f a = Ok b) l -> exists bs, mapM f l = Ok bs.
Proof.
  induction 1 as [|a t [b Hb] _ [bs IH]]; simpl.
  - eauto.
  - rewrite Hb, IH. simpl. eauto.
Qed.

(** A loop raises exactly the exception of some iteration. *)
Lemma mapM_raise {A B : Type} (f : A -> result B) (l : list A) (e : pyerr) :
  mapM f l = Raise e -> exists a, In a l /\ f a = Raise e.
Proof.
  induction l as [|a t IH]; simpl; [discriminate|].
  destruct (f a) as [b|e'] eqn:Ea; simpl.
  - destruct (mapM f t) as [bs|e''] eqn:Et; simpl; [discriminate|].
    intros H. injection H as ->. destruct (IH eq_refl) as (a' & Hin & Ha'). eauto.
  - intros H. injection H as ->. eauto.
Qed.

(** ** Array indexing *)

Lemma In_firstn {A : Type} (k : nat) (l : list A) (x : A) :
  In x (firstn k l) -> In x l.
Proof.
  intros H. rewrite <- (firstn_skipn k l). apply in_or_app. now left.
Qed.

Lemma take_ok {A : Type} (arr : list A) (idx : list nat) :
  Forall (fun j => (j < length arr)%nat) idx ->
  exists vals, Np.take arr idx = Ok vals /\ length vals = length idx.
Proof.
  intros H. unfold Np.take.
  destruct (mapM_total (fun j => match nth_error arr j with
                                 | Some a => Ok a
                                 | None => Raise IndexError
                                 end) idx) as [vals Hv].
  - eapply Forall_impl; [|exact H]. simpl. intros j Hj.
    destruct (nth_error arr j) eqn:E; [eauto|].
    apply nth_error_None in E. lia.
  - exists vals. split; [exact Hv|]. eapply mapM_length; eauto.
Qed.

Lemma take_inv {A : Type} (arr : list A) (idx : list nat) (vals : list A) :
  Np.take arr idx = Ok vals ->
  length vals = length idx /\
  Forall (fun j => (j < length arr)%nat) idx /\
  forall q a, nth_error vals q = Some a ->
              exists j, nth_error idx q = Some j /\ nth_error arr j = Some a.
Proof.
  intros H. unfold Np.take in H. split; [eapply mapM_length; eauto|]. split.
  - apply mapM_Forall2 in H. clear -H.
    induction H as [|j a l bs Hj _ IH]; constructor; [|exact IH].
    destruct (nth_error arr j) eqn:E; [|discriminate].
    apply nth_error_Some. congruence.
  - intros q a Hq. destruct (mapM_nth_error _ _ _ H q a Hq) as (j & Hj & Hf).
    exists j. split; [exact Hj|].
    destruct (nth_error arr j); [now injection Hf as -> | discriminate].
Qed.

Lemma take_raise {A : Type} (arr : list A) (idx : list nat) (e : pyerr) :
  Np.take arr idx = Raise e ->
  e = IndexError /\ exists j, In j idx /\ (length arr <= j)%nat.
Proof.
  intros H. apply mapM_raise in H. destruct H as (j & Hin & Hj).
  destruct (nth_error arr j) eqn:E; [discriminate|].
  injection Hj as <-. split; [reflexivity|].
  exists j. split; [exact Hin|]. now apply nth_error_None.
Qed.

(** ** Minimum, maximum and the min-max rescaling *)

Module MinMaxFacts.

Import MinMaxScaler.

Lemma min_from_le m l : Np.min_from m l <= m /\ Forall (fun x => Np.min_from m l <= x) l.
Proof.
  revert m. induction l as [|x t IH]; intros m; simpl.
  - split; [lra | constructor].
  - destruct (IH (Rmin m x)) as [H1 H2].
    pose proof (Rmin_l m x). pose proof (Rmin_r m x).
    split; [lra|]. constructor; [lra | exact H2].
Qed.


(** A nondecreasing map commutes with the running minimum and maximum. *)
Lemma finite_values_Fin xs : finite_values (map Np.Fin xs) = xs.
Proof.
  unfold finite_values. induction xs as [|x t IH]; simpl; [reflexivity|].
  now rewrite IH.
Qed.

(** The affine map that [fit] and [transform] apply to a column with
    minimum [lo] and maximum [hi]. *)
Lemma nth_fit X j :
  (j < n_features X)%nat ->
  nth j (fit X) (Np.NaN, Np.NaN) = fit_column (column j X).
Proof.
  intros Hj. unfold fit.
  rewrite (nth_indep _ (Np.NaN, Np.NaN) (fit_column (column 0 X)))
    by (now rewrite length_map, length_seq).
  rewrite (map_nth (fun j => fit_column (column j X))).
  now rewrite seq_nth.
Qed.

End MinMaxFacts.

(** ** Sorting and angular increments *)

Lemma sort_of_sorted l : Sorted Rle l -> Np.sort l = l.
Proof.
  induction 1 as [|a t Ht IH Hhd]; [reflexivity|].
  simpl. fold (Np.sort t). rewrite IH.
  destruct Hhd as [|h t' Hle]; [reflexivity|].
  simpl. destruct (Rle_dec a h); [reflexivity | contradiction].
Qed.

Lemma insert_perm x l : Permutation (Np.insert x l) (x :: l).
Proof.
  induction l as [|h t IH]; simpl; [reflexivity|].
  destruct (Rle_dec x h); [reflexivity|].
  rewrite IH. apply perm_swap.
Qed.

Lemma sort_perm l : Permutation (Np.sort l) l.
Proof.
  induction l as [|h t IH]; simpl; [reflexivity|].
  fold (Np.sort t). rewrite insert_perm. now constructor.
Qed.

Lemma insert_sorted x l :
  StronglySorted Rle l -> StronglySorted Rle (Np.insert x l).
Proof.
  induction 1 as [|h t Ht IH Hh]; simpl.
  - repeat constructor.
  - destruct (Rle_dec x h) as [Hle|Hgt].
    + constructor; [now constructor|].
      constructor; [exact Hle|].
      rewrite Forall_forall in *. intros y Hy. specialize (Hh y Hy). lra.
    + constructor; [exact IH|].
      rewrite Forall_forall in *. intros y Hy.
      apply (Permutation_in _ (insert_perm x t)) in Hy.
      destruct Hy as [<-|Hy]; [lra | now apply Hh].
Qed.

Lemma sort_sorted l : StronglySorted Rle (Np.sort l).
Proof.
  induction l as [|h t IH]; simpl; [constructor|].
  fold (Np.sort t). now apply insert_sorted.
Qed.

Lemma min_from_In m l : In (Np.min_from m l) (m :: l).
Proof.
  revert m. induction l as [|x t IH]; intros m; simpl; [now left|].
  destruct (IH (Rmin m x)) as [H|H].
  - unfold Rmin in H at 1. destruct (Rle_dec m x); rewrite <- H; auto.
  - auto.
Qed.

(** The first sorted angle is the minimum that [angles.min()] returns. *)
Lemma sort_hd_min a t :
  exists ss, Np.sort (a :: t) = Np.min_from a t :: ss.
Proof.
  pose proof (sort_sorted (a :: t)) as Hs.
  pose proof (sort_perm (a :: t)) as Hp.
  destruct (Np.sort (a :: t)) as [|h ss] eqn:E.
  - apply Permutation_length in Hp. discriminate.
  - exists ss. f_equal.
    destruct (MinMaxFacts.min_from_le a t) as [Hma Hmt].
    assert (Hh : In h (a :: t)) by (apply (Permutation_in _ Hp); now left).
    assert (Hm : In (Np.min_from a t) (h :: ss)).
    { apply (Permutation_in _ (Permutation_sym Hp)). apply min_from_In. }
    assert (H1 : Np.min_from a t <= h).
    { destruct Hh as [<-|Hh]; [exact Hma|].
      rewrite Forall_forall in Hmt. now apply Hmt. }
    assert (H2 : h <= Np.min_from a t).
    { inversion Hs as [|? ? _ Hall]; subst.
      destruct Hm as [<-|Hm]; [lra|].
      rewrite Forall_forall in Hall. now apply Hall. }
    lra.
Qed.

Lemma last_cons_indep {A : Type} (l : list A) (b d d' : A) :
  last (b :: l) d = last (b :: l) d'.
Proof.
  revert b. induction l as [|c t IH]; intros b; [reflexivity|].
  change (last (c :: t) d = last (c :: t) d'). apply IH.
Qed.

(** Consecutive differences telescope: they sum to last minus first. *)
Lemma sum_diff a l : Np.sum (Np.diff (a :: l)) = last (a :: l) a - a.
Proof.
  revert a. induction l as [|b t IH]; intros a.
  - simpl. lra.
  - change (Np.diff (a :: b :: t)) with ((b - a) :: Np.diff (b :: t)).
    cbn [Np.sum]. rewrite IH.
    change (last (a :: b :: t) a) with (last (b :: t) a).
    rewrite (last_cons_indep t b a b).
    lra.
Qed.

Lemma diff_length a l : length (Np.diff (a :: l)) = length l.
Proof.
  revert a. induction l as [|b t IH]; intros a; [reflexivity|].
  change (Np.diff (a :: b :: t)) with ((b - a) :: Np.diff (b :: t)).
  cbn [length]. now rewrite IH.
Qed.

(** Whatever the neighbour ring, the increments the code computes are one
    fewer than the angles and sum to less than a full turn. *)
Lemma increments_short_of_full_turn angles :
  angles <> [] ->
  Forall (fun a => 0 <= a < two_pi) angles ->
  exists incs,
    angle_increments angles = Ok incs /\
    length incs = (length angles - 1)%nat /\
    Np.sum incs < two_pi.
Proof.
  intros Hne Hall. unfold angle_increments, Np.array.
  destruct angles as [|a0 t0] eqn:Ea; [congruence|]. rewrite <- Ea in *.
  assert (Hmin : exists m, Np.min angles = Ok m) by (rewrite Ea; simpl; eauto).
  destruct Hmin as [m ->]. simpl bind.
  pose proof (sort_perm angles) as Hp.
  assert (Hs : Forall (fun a => 0 <= a < two_pi) (Np.sort angles)).
  { eapply Permutation_Forall; [symmetry; exact Hp | exact Hall]. }
  destruct (Np.sort angles) as [|s ss] eqn:Es.
  - apply Permutation_length in Hp. rewrite Ea in Hp. discriminate.
  - exists (Np.diff (s :: ss)). split; [reflexivity|]. split.
    + rewrite diff_length. apply Permutation_length in Hp. simpl in Hp. lia.
    + rewrite sum_diff.
      rewrite Forall_forall in Hs.
      pose proof (Hs s (or_introl eq_refl)) as H1.
      assert (H2 : In (last (s :: ss) s) (s :: ss)).
      { destruct (exists_last (l := s :: ss) ltac:(discriminate)) as (l' & z & E).
        rewrite E. rewrite last_last. apply in_or_app. right. now left. }
      apply Hs in H2. lra.
Qed.

(** With the first angle plus 2 pi appended, the increments are as many as
    the angles and sum to a full turn. *)
Lemma wrapped_increments_sum angles :
  angles <> [] ->
  exists closed,
    wrapped_increments angles = Ok closed /\
    length closed = length angles /\
    Np.sum closed = two_pi.
Proof.
  intros Hne. destruct angles as [|a t]; [congruence|].
  unfold wrapped_increments. cbn [Np.min bind].
  destruct (sort_hd_min a t) as [ss Hs].
  pose proof (sort_perm (a :: t)) as Hp. rewrite Hs in Hp.
  apply Permutation_length in Hp.
  rewrite Hs. eexists. split; [reflexivity|].
  cbn [app]. split.
  - rewrite diff_length, length_app. simpl in *. lia.
  - rewrite sum_diff.
    change (Np.min_from a t :: ss ++ [Np.min_from a t + two_pi])
      with ((Np.min_from a t :: ss) ++ [Np.min_from a t + two_pi]).
    rewrite last_last. lra.
Qed.

Lemma mod_range a m : 0 < m -> 0 <= Np.mod_ a m < m.
Proof.
  intros Hm. unfold Np.mod_.
  destruct (base_Int_part (a / m)) as [H1 H2].
  set (q := IZR (Int_part (a / m))) in *.
  assert (Ha : a = a / m * m) by (field; lra).
  split.
  - assert (q * m <= a / m * m) by (apply Rmult_le_compat_r; lra). lra.
  - assert ((a / m - 1) * m < q * m) by (apply Rmult_lt_compat_r; lra). lra.
Qed.

(** The angles of every neighbour ring lie in [0, 2 pi), so the increments
    that the loop body computes never reach a full turn. *)
Lemma ring_increments_short (difference_vectors : list point) :
  difference_vectors <> [] ->
  exists incs,
    angle_increments
      (map (fun v => Np.mod_ (Np.arctan2 (snd v) (fst v)) two_pi) difference_vectors)
    = Ok incs /\
    length incs = (length difference_vectors - 1)%nat /\
    Np.sum incs < two_pi.
Proof.
  intros Hne.
  destruct (increments_short_of_full_turn
              (map (fun v => Np.mod_ (Np.arctan2 (snd v) (fst v)) two_pi)
                   difference_vectors)) as (incs & H1 & H2 & H3).
  - destruct difference_vectors; [congruence | discriminate].
  - apply Forall_forall. intros a Ha. apply in_map_iff in Ha.
    destruct Ha as (v & <- & _). apply mod_range.
    unfold two_pi. pose proof PI_RGT_0. lra.
  - exists incs. rewrite length_map in H2. auto.
Qed.

(** ** The index query *)

Module KDTreeFacts.

Lemma insert_by_perm key j l : Permutation (insert_by key j l) (j :: l).
Proof.
  induction l as [|h t IH]; simpl; [reflexivity|].
  destruct (Rle_dec (key j) (key h)); [reflexivity|].
  rewrite IH. apply perm_swap.
Qed.

Lemma sort_by_perm key l : Permutation (sort_by key l) l.
Proof.
  induction l as [|h t IH]; simpl; [reflexivity|].
  rewrite insert_by_perm. now constructor.
Qed.

Lemma sort_by_length key l : length (sort_by key l) = length l.
Proof. apply Permutation_length, sort_by_perm. Qed.

Lemma sort_by_In key l j : In j (sort_by key l) <-> In j l.
Proof.
  split; apply Permutation_in; [|symmetry]; apply sort_by_perm.
Qed.

Lemma insert_by_sorted key j l :
  StronglySorted (le_key key) l -> StronglySorted (le_key key) (insert_by key j l).
Proof.
  induction 1 as [|h t Ht IH Hh]; simpl.
  - repeat constructor.
  - destruct (Rle_dec (key j) (key h)) as [Hle|Hgt].
    + constructor; [now constructor|].
      constructor; [exact Hle|].
      rewrite Forall_forall in *. intros x Hx. unfold le_key in *.
      specialize (Hh x Hx). lra.
    + constructor; [exact IH|].
      rewrite Forall_forall in *. intros x Hx.
      apply (Permutation_in _ (insert_by_perm key j t)) in Hx.
      destruct Hx as [<-|Hx]; [unfold le_key; lra | now apply Hh].
Qed.

Lemma sort_by_sorted key l : StronglySorted (le_key key) (sort_by key l).
Proof.
  induction l as [|h t IH]; simpl; [constructor | now apply insert_by_sorted].
Qed.

(** The first index of the sorted candidates is a nearest one. *)
Lemma sort_by_hd_min key l i :
  hd_error (sort_by key l) = Some i ->
  In i l /\ forall j, In j l -> key i <= key j.
Proof.
  intros Hhd.
  pose proof (sort_by_sorted key l) as Hs.
  destruct (sort_by key l) as [|h t] eqn:E; [discriminate|].
  injection Hhd as ->.
  assert (Hin : In i (sort_by key l)) by (rewrite E; now left).
  split; [now apply sort_by_In in Hin|].
  intros j Hj. apply sort_by_In with (key := key) in Hj. rewrite E in Hj.
  inversion Hs as [|? ? _ Hall]; subst.
  destruct Hj as [<-|Hj]; [lra|].
  rewrite Forall_forall in Hall. now apply Hall.
Qed.

Lemma candidates_lt t ub x j : In j (candidates t ub x) -> (j < n t)%nat.
Proof.
  unfold candidates. rewrite filter_In, in_seq. lia.
Qed.

Lemma found_lt t k ub x :
  Forall (fun j => (j < n t)%nat)
         (firstn k (sort_by (dist_to t x) (candidates t ub x))).
Proof.
  apply Forall_forall. intros j Hj.
  apply In_firstn in Hj. apply sort_by_In in Hj. eapply candidates_lt; eauto.
Qed.

Lemma query_row_length t k ub x : length (query_row t k ub x) = k.
Proof.
  unfold query_row. rewrite length_app, repeat_length.
  rewrite length_firstn. lia.
Qed.

Lemma filter_all_true {A : Type} (f : A -> bool) (l : list A) :
  Forall (fun a => f a = true) l -> filter f l = l.
Proof.
  induction 1 as [|a t Ha _ IH]; simpl; [reflexivity|]. now rewrite Ha, IH.
Qed.

Lemma filter_repeat_false {A : Type} (f : A -> bool) (a : A) (m : nat) :
  f a = false -> filter f (repeat a m) = [].
Proof.
  intros Ha. induction m as [|m IH]; simpl; [reflexivity|]. now rewrite Ha.
Qed.

(** On the tree built over [coordinates], the sentinel filter leaves exactly
    the points found, without the first column. *)
Lemma drop_sentinel_query_row coordinates k ub x :
  drop_sentinel coordinates (tl (query_row (mk coordinates) k ub x)) =
  tl (firstn k (sort_by (dist_to (mk coordinates) x)
                        (candidates (mk coordinates) ub x))).
Proof.
  unfold query_row, drop_sentinel.
  pose proof (found_lt (mk coordinates) k ub x) as Hlt.
  change (n (mk coordinates)) with (length coordinates) in *.
  set (found := firstn k _) in *.
  assert (Hpad : forall m, filter (fun j => negb (Nat.eqb j (length coordinates)))
                             (repeat (length coordinates) m) = []).
  { intros m. apply filter_repeat_false. now rewrite Nat.eqb_refl. }
  destruct found as [|h t] eqn:E; simpl.
  - destruct (k - 0)%nat; simpl; [reflexivity|]. apply Hpad.
  - rewrite filter_app, Hpad, app_nil_r. apply filter_all_true.
    inversion Hlt as [|? ? _ Ht]; subst.
    eapply Forall_impl; [|exact Ht]. simpl. intros j Hj.
    apply negb_true_iff, Nat.eqb_neq. lia.
Qed.

Lemma count_split (P : nat -> bool) (i : nat) :
  forall len s,
    length (filter P (seq s len)) =
    (length (filter (fun j => negb (Nat.eqb j i) && P j) (seq s len)) +
     (if (s <=? i)%nat && (i <? s + len)%nat && P i then 1 else 0))%nat.
Proof.
  induction len as [|len IH]; intros s.
  - simpl. replace (i <? s + 0)%nat with (i <? s)%nat by (f_equal; lia).
    destruct (Nat.leb_spec s i), (Nat.ltb_spec i s); simpl; lia.
  - pose proof (IH (S s)) as IHs. cbn [seq filter].
    destruct (Nat.eqb_spec s i) as [->|Hne].
    + simpl negb. cbn [andb].
      replace (S i <=? i)%nat with false in IHs by (symmetry; apply Nat.leb_gt; lia).
      replace (i <=? i)%nat with true by (symmetry; apply Nat.leb_le; lia).
      replace (i <? i + S len)%nat with true by (symmetry; apply Nat.ltb_lt; lia).
      cbn [andb] in *. destruct (P i); simpl; lia.
    + simpl negb. cbn [andb].
      replace ((S s <=? i)%nat && (i <? S s + len)%nat)
        with ((s <=? i)%nat && (i <? s + S len)%nat) in IHs.
      * destruct (P s); simpl; lia.
      * destruct (Nat.leb_spec s i), (Nat.leb_spec (S s) i),
          (Nat.ltb_spec i (s + S len)), (Nat.ltb_spec i (S s + len));
          simpl; try reflexivity; lia.
Qed.

Lemma norm_nonneg v : 0 <= Np.norm v.
Proof. apply sqrt_pos. Qed.

Lemma dist_self coordinates i :
  dist_to (mk coordinates) (nth i coordinates (0, 0)) i = 0.
Proof.
  unfold dist_to, Np.norm, sub_pt. simpl.
  replace (_ + _) with 0 by ring. apply sqrt_0.
Qed.

(** The candidates of point [i] are the other points within the bound and,
    when the bound is positive, the point itself. *)
Lemma candidates_count coordinates r i :
  (i < length coordinates)%nat ->
  length (candidates (mk coordinates) (Some r) (nth i coordinates (0, 0))) =
  (count_others coordinates r i + (if Rlt_dec 0 r then 1 else 0))%nat.
Proof.
  intros Hi. unfold candidates, count_others.
  change (n (mk coordinates)) with (length coordinates).
  rewrite (count_split _ i). f_equal.
  replace (0 <=? i)%nat with true by (symmetry; apply Nat.leb_le; lia).
  replace (i <? 0 + length coordinates)%nat with true
    by (symmetry; apply Nat.ltb_lt; lia).
  cbn [andb]. rewrite dist_self. unfold within.
  destruct (Rlt_dec 0 r); reflexivity.
Qed.

Lemma count_others_nonpos coordinates r i :
  r <= 0 -> count_others coordinates r i = O.
Proof.
  intros Hr. unfold count_others.
  rewrite (proj2 (List.length_zero_iff_nil _)); [reflexivity|].
  induction (seq 0 (length coordinates)) as [|j t IH]; cbn [filter]; [reflexivity|].
  unfold within.
  destruct (Rlt_dec (dist_to _ _ j) r) as [Hlt|_].
  - pose proof (norm_nonneg
                  (sub_pt (nth j (data (mk coordinates)) (0, 0))
                          (nth i coordinates (0, 0)))) as H0.
    unfold dist_to in Hlt. lra.
  - rewrite andb_false_r. exact IH.
Qed.

(** The number of neighbour indices that survive the sentinel filter. *)
Lemma surviving_count coordinates r k i :
  (i < length coordinates)%nat -> (1 <= k)%nat ->
  length (drop_sentinel coordinates
            (tl (query_row (mk coordinates) k (Some r) (nth i coordinates (0, 0))))) =
  Nat.min (k - 1) (count_others coordinates r i).
Proof.
  intros Hi Hk. rewrite drop_sentinel_query_row.
  assert (Htl : forall (l : list nat), length (tl l) = (length l - 1)%nat)
    by (intros [|? ?]; simpl; lia).
  rewrite Htl, length_firstn, sort_by_length, candidates_count by exact Hi.
  destruct (Rlt_dec 0 r) as [Hr|Hr].
  - lia.
  - rewrite count_others_nonpos by lra. lia.
Qed.

(** Every surviving index addresses a point. *)
Lemma surviving_in_bounds coordinates k ub x :
  Forall (fun j => (j < length coordinates)%nat)
         (drop_sentinel coordinates (tl (query_row (mk coordinates) k ub x))).
Proof.
  rewrite drop_sentinel_query_row.
  pose proof (found_lt (mk coordinates) k ub x) as Hlt.
  change (n (mk coordinates)) with (length coordinates) in Hlt.
  destruct (firstn k _) as [|h t]; simpl; [constructor|].
  now inversion Hlt.
Qed.

End KDTreeFacts.

(** ** The loop body of get_nn_features *)

Lemma nn_row_inv coordinates i nns row :
  nn_row coordinates i nns = Ok row ->
  drop_sentinel coordinates nns <> [] /\
  length row = 8%nat /\
  nth 5 row Np.NaN = Np.Fin (INR (length (drop_sentinel coordinates nns))).
Proof.
  unfold nn_row. intros H.
  destruct (Np.take coordinates (drop_sentinel coordinates nns)) as [vals|e] eqn:Et;
    [|discriminate].
  apply take_inv in Et. destruct Et as (Hlen & _ & _).
  destruct vals as [|v vs]; [discriminate|].
  split; [intros E; rewrite E in Hlen; discriminate|].
  simpl in H. injection H as <-. split; reflexivity.
Qed.

Lemma nn_row_ok coordinates i nns :
  drop_sentinel coordinates nns <> [] ->
  Forall (fun j => (j < length coordinates)%nat) (drop_sentinel coordinates nns) ->
  exists row, nn_row coordinates i nns = Ok row.
Proof.
  intros Hne Hin. unfold nn_row.
  destruct (take_ok coordinates _ Hin) as (vals & -> & Hlen).
  destruct vals as [|v vs].
  - destruct (drop_sentinel coordinates nns); [congruence | discriminate].
  - simpl. eauto.
Qed.

Lemma nn_row_raise coordinates i nns e :
  nn_row coordinates i nns = Raise e ->
  (e = ValueError /\ drop_sentinel coordinates nns = []) \/
  (e = IndexError /\
   exists j, In j (drop_sentinel coordinates nns) /\ (length coordinates <= j)%nat).
Proof.
  unfold nn_row. intros H.
  destruct (Np.take coordinates (drop_sentinel coordinates nns)) as [vals|e'] eqn:Et.
  - left. apply take_inv in Et. destruct Et as (Hlen & _ & _).
    destruct vals as [|v vs]; [|discriminate].
    simpl in H. injection H as <-. split; [reflexivity|].
    now destruct (drop_sentinel coordinates nns).
  - right. simpl in H. injection H as <-. now apply take_raise in Et.
Qed.

(** ** get_nn_features on the tree built over its argument *)

Lemma enumerate_nth_error {A : Type} (l : list A) (i j : nat) (a : A) :
  nth_error (enumerate l) i = Some (j, a) <-> j = i /\ nth_error l i = Some a.
Proof.
  unfold enumerate.
  assert (G : forall s, nth_error (combine (seq s (length l)) l) i = Some (j, a) <->
                        j = (s + i)%nat /\ nth_error l i = Some a).
  { revert i. induction l as [|h t IH]; intros i s; simpl.
    - destruct i; simpl; split; try discriminate; intros [_ H]; discriminate.
    - destruct i as [|i]; simpl.
      + split.
        * intros H. injection H as <- <-. split; [lia | reflexivity].
        * intros [-> H]. injection H as <-. f_equal. f_equal. lia.
      + rewrite IH. split; intros [-> H]; (split; [lia | exact H]). }
  apply G.
Qed.

Lemma get_nn_features_unfold tree_c coordinates r k :
  (2 <= k)%nat ->
  get_nn_features tree_c coordinates r k =
  mapM (fun '(point_index, nns) => nn_row coordinates point_index nns)
       (enumerate (map (@tl nat) (map (query_row tree_c k (Some r)) coordinates))).
Proof.
  intros Hk. unfold get_nn_features, query.
  destruct k as [|[|k]]; [lia | lia | reflexivity].
Qed.

Lemma get_nn_features_ok_k tree_c coordinates r k feats :
  get_nn_features tree_c coordinates r k = Ok feats -> (2 <= k)%nat.
Proof.
  unfold get_nn_features, query.
  destruct k as [|[|k]]; simpl; [discriminate | discriminate | lia].
Qed.

(** The loop element of point [i]. *)
Lemma loop_element tree_c coordinates r k i j nns :
  nth_error (enumerate (map (@tl nat) (map (query_row tree_c k (Some r)) coordinates))) i
  = Some (j, nns) ->
  j = i /\ (i < length coordinates)%nat /\
  nns = tl (query_row tree_c k (Some r) (nth i coordinates (0, 0))).
Proof.
  intros H. apply enumerate_nth_error in H. destruct H as [-> H].
  split; [reflexivity|].
  rewrite map_map in H. rewrite nth_error_map in H.
  destruct (nth_error coordinates i) as [x|] eqn:E; [|discriminate].
  simpl in H. injection H as <-.
  split; [apply nth_error_Some; congruence|].
  now rewrite (nth_error_nth _ _ _ E).
Qed.

(** What a returned feature array says about each point. *)
Lemma get_nn_features_rows coordinates r k feats :
  get_nn_features (mk coordinates) coordinates r k = Ok feats ->
  length feats = length coordinates /\
  forall i row,
    nth_error feats i = Some row ->
    length row = 8%nat /\
    nth 5 row Np.NaN = Np.Fin (INR (Nat.min (k - 1) (count_others coordinates r i))) /\
    (1 <= count_others coordinates r i)%nat.
Proof.
  intros H. pose proof (get_nn_features_ok_k _ _ _ _ _ H) as Hk.
  rewrite get_nn_features_unfold in H by exact Hk. split.
  - apply mapM_length in H. rewrite H. unfold enumerate.
    rewrite length_combine, length_seq, !length_map. lia.
  - intros i row Hrow.
    destruct (mapM_nth_error _ _ _ H i row Hrow) as ([j nns] & Hel & Hnn).
    apply loop_element in Hel. destruct Hel as (-> & Hi & ->).
    apply nn_row_inv in Hnn. destruct Hnn as (Hne & Hlen & Hv).
    pose proof (KDTreeFacts.surviving_count coordinates r k i Hi ltac:(lia)) as Hc.
    split; [exact Hlen|]. split; [now rewrite Hv, Hc|].
    destruct (drop_sentinel coordinates _) as [|? ?]; [congruence|].
    simpl in Hc. lia.
Qed.

(** The feature array is returned when every point has a neighbour. *)
Lemma get_nn_features_total coordinates r k :
  (2 <= k)%nat ->
  (forall i, (i < length coordinates)%nat -> (1 <= count_others coordinates r i)%nat) ->
  exists feats, get_nn_features (mk coordinates) coordinates r k = Ok feats.
Proof.
  intros Hk Hall. rewrite get_nn_features_unfold by exact Hk.
  apply mapM_total. apply Forall_forall. intros [j nns] Hin.
  apply In_nth_error in Hin. destruct Hin as [i Hi].
  apply loop_element in Hi. destruct Hi as (-> & Hi & ->).
  apply nn_row_ok.
  - pose proof (KDTreeFacts.surviving_count coordinates r k i Hi ltac:(lia)) as Hc.
    specialize (Hall i Hi). intros E. rewrite E in Hc. simpl in Hc. lia.
  - apply KDTreeFacts.surviving_in_bounds.
Qed.

(** On its own tree, get_nn_features never leaves through the lookup
    [coordinates[nns]]. *)
Lemma get_nn_features_raise coordinates r k e :
  (2 <= k)%nat ->
  get_nn_features (mk coordinates) coordinates r k = Raise e ->
  e = ValueError /\
  exists i, (i < length coordinates)%nat /\ count_others coordinates r i = O.
Proof.
  intros Hk H. rewrite get_nn_features_unfold in H by exact Hk.
  apply mapM_raise in H. destruct H as ([j nns] & Hin & Hnn).
  apply In_nth_error in Hin. destruct Hin as [i Hi].
  apply loop_element in Hi. destruct Hi as (-> & Hi & ->).
  apply nn_row_raise in Hnn. destruct Hnn as [[-> Hnil]|[_ (j & Hj & Hge)]].
  - split; [reflexivity|]. exists i. split; [exact Hi|].
    pose proof (KDTreeFacts.surviving_count coordinates r k i Hi ltac:(lia)) as Hc.
    rewrite Hnil in Hc. simpl in Hc. lia.
  - pose proof (KDTreeFacts.surviving_in_bounds coordinates k (Some r)
                  (nth i coordinates (0, 0))) as Hb.
    rewrite Forall_forall in Hb. specialize (Hb j Hj). lia.
Qed.

(** A point without a neighbour makes get_nn_features raise ValueError. *)
Lemma get_nn_features_isolated coordinates r k i :
  (2 <= k)%nat -> (i < length coordinates)%nat ->
  count_others coordinates r i = O ->
  get_nn_features (mk coordinates) coordinates r k = Raise ValueError.
Proof.
  intros Hk Hi Hc.
  destruct (get_nn_features (mk coordinates) coordinates r k) as [feats|e] eqn:E.
  - exfalso. destruct (get_nn_features_rows _ _ _ _ E) as [Hlen Hrows].
    destruct (nth_error feats i) as [row|] eqn:Er.
    + destruct (Hrows i row Er) as (_ & _ & H1). lia.
    + apply nth_error_None in Er. lia.
  - apply get_nn_features_raise in E; [|exact Hk]. now destruct E as [-> _].
Qed.

(** ** Deciding distances on concrete points *)

Lemma within_true v r :
  0 < r -> fst v * fst v + snd v * snd v < r * r ->
  within (Some r) (Np.norm v) = true.
Proof.
  intros Hr Hv. unfold within, Np.norm.
  destruct (Rlt_dec _ r) as [_|Hn]; [reflexivity|]. exfalso. apply Hn.
  destruct (Rle_dec (fst v * fst v + snd v * snd v) 0) as [Hle|Hgt].
  - rewrite sqrt_neg_0 by exact Hle. exact Hr.
  - rewrite <- (sqrt_square r) by lra. apply sqrt_lt_1; nra.
Qed.

Lemma line3_counts i : (i < 3)%nat -> count_others line3 5 i = 2%nat.
Proof.
  intros Hi. unfold count_others, dist_to.
  destruct i as [|[|[|i]]]; [| | |lia]; cbn [line3 length seq filter Nat.eqb negb andb data nth];
    rewrite !within_true by (simpl; lra); reflexivity.
Qed.

(** ** The ambient index *)

(** When the global tree indexes more points than the argument has and a
    row is padded, the tree's sentinel passes the filter and the lookup
    leaves the array. *)
Lemma ambient_tree_out_of_bounds tree_c p coordinates r k :
  (length (p :: coordinates) < n tree_c)%nat -> (n tree_c + 2 <= k)%nat ->
  get_nn_features tree_c (p :: coordinates) r k = Raise IndexError.
Proof.
  intros Hn Hk. rewrite get_nn_features_unfold by lia.
  cbn [map enumerate length seq combine mapM].
  assert (Hin : In (n tree_c)
                   (drop_sentinel (p :: coordinates) (tl (query_row tree_c k (Some r) p)))).
  { unfold drop_sentinel. apply filter_In. split.
    - unfold query_row.
      pose proof (KDTreeFacts.found_lt tree_c k (Some r) p) as Hlt.
      set (found := firstn k _) in *.
      assert (Hlen : (length found <= n tree_c)%nat).
      { unfold found. rewrite length_firstn, KDTreeFacts.sort_by_length.
        unfold candidates.
        pose proof (filter_length_le
                      (fun j => within (Some r) (dist_to tree_c p j)) (seq 0 (n tree_c))) as Hf.
        rewrite length_seq in Hf. lia. }
      destruct (k - length found)%nat as [|[|m]] eqn:Em; [lia | lia |].
      destruct found as [|h t]; simpl.
      + now left.
      + apply in_or_app. right. now left.
    - apply negb_true_iff, Nat.eqb_neq. lia. }
  unfold nn_row at 1.
  destruct (Np.take (p :: coordinates) _) as [vals|e] eqn:Et.
  - apply take_inv in Et. destruct Et as (_ & Hall & _).
    rewrite Forall_forall in Hall. specialize (Hall _ Hin). lia.
  - apply take_raise in Et. destruct Et as [-> _]. reflexivity.
Qed.

(** ** The interior mask *)

Lemma mask_select_map {A : Type} (f : A -> bool) (arr : list A) :
  Np.mask_select arr (map f arr) = Ok (filter f arr).
Proof.
  unfold Np.mask_select. rewrite length_map, Nat.eqb_refl. f_equal.
  induction arr as [|a t IH]; simpl; [reflexivity|].
  destruct (f a); simpl; now rewrite IH.
Qed.

Lemma off_edge_map features :
  off_edge features = map (fun row => Np.ge (nth 5 row Np.NaN) 5) features.
Proof. unfold off_edge, column. now rewrite map_map. Qed.

Lemma ge_5_count (v : nat) : Np.ge (Np.Fin (INR v)) 5 = (5 <=? v)%nat.
Proof.
  unfold Np.ge. replace 5 with (INR 5) by (simpl; lra).
  destruct (Rle_dec (INR 5) (INR v)) as [Hle|Hgt].
  - apply INR_le in Hle. symmetry. now apply Nat.leb_le.
  - symmetry. apply Nat.leb_gt.
    destruct (Nat.lt_ge_cases v 5) as [Hlt|Hge]; [exact Hlt|].
    exfalso. apply Hgt. now apply le_INR.
Qed.

Module MaskFacts.

Lemma filter_map_comm {A B : Type} (f : B -> bool) (g : A -> B) (l : list A) :
  filter f (map g l) = map g (filter (fun a => f (g a)) l).
Proof.
  induction l as [|a t IH]; simpl; [reflexivity|].
  destruct (f (g a)); simpl; now rewrite IH.
Qed.

Lemma selected_cons b mask :
  selected (b :: mask) = (if b then [O] else []) ++ map S (selected mask).
Proof.
  unfold selected. cbn [length seq filter nth].
  rewrite <- seq_shift, filter_map_comm. cbn [nth].
  destruct b; reflexivity.
Qed.

Lemma selected_sorted mask : StronglySorted lt (selected mask).
Proof.
  unfold selected. generalize 0%nat as s.
  induction (length mask) as [|len IH]; intros s; cbn [seq filter]; [constructor|].
  assert (Hrest : Forall (lt s) (filter (fun j => nth j mask false) (seq (S s) len))).
  { apply Forall_forall. intros j Hj. apply filter_In in Hj.
    destruct Hj as [Hj _]. apply in_seq in Hj. lia. }
  destruct (nth s mask false); [constructor; [apply IH | exact Hrest] | apply IH].
Qed.

(** Boolean indexing keeps row [j] of the array at position [i] exactly when
    [j] is the i-th index that the mask selects. *)
Lemma mask_select_rows {A : Type} (mask : list bool) :
  forall arr : list A,
    length mask = length arr ->
    exists out,
      Np.mask_select arr mask = Ok out /\
      length out = length (selected mask) /\
      forall i j, nth_error (selected mask) i = Some j ->
                  nth_error out i = nth_error arr j /\ nth j mask false = true.
Proof.
  unfold Np.mask_select.
  induction mask as [|b mask IH]; intros arr Hlen.
  - destruct arr; [|discriminate]. exists []. simpl.
    repeat split; try reflexivity; destruct i; discriminate.
  - destruct arr as [|a arr]; [discriminate|].
    injection Hlen as Hlen. destruct (IH arr Hlen) as (out & Hout & Hl & Hrows).
    rewrite Hlen, Nat.eqb_refl in Hout. injection Hout as Hout.
    cbn [length]. rewrite Hlen, Nat.eqb_refl.
    rewrite selected_cons. cbn [combine filter fst].
    assert (Hshift : forall i j, nth_error (map S (selected mask)) i = Some j ->
                                 exists j', j = S j' /\ nth_error (selected mask) i = Some j').
    { intros i j H. rewrite nth_error_map in H.
      destruct (nth_error (selected mask) i) as [j'|]; [|discriminate].
      injection H as <-. eauto. }
    destruct b; cbn [map snd app length].
    + exists (a :: out). rewrite <- Hout at 1. split; [reflexivity|].
      split; [simpl; rewrite length_map; congruence|].
      intros i j Hij. destruct i as [|i].
      * injection Hij as <-. split; reflexivity.
      * destruct (Hshift i j Hij) as (j' & -> & Hj'). apply (Hrows i j' Hj').
    + exists out. rewrite <- Hout at 1. split; [reflexivity|].
      split; [rewrite length_map; congruence|].
      intros i j Hij.
      destruct (Hshift i j Hij) as (j' & -> & Hj'). apply (Hrows i j' Hj').
Qed.

End MaskFacts.

(** ** Label propagation *)

Module LabelFacts.

Lemma candidates_all t x : candidates t None x = seq 0 (n t).
Proof.
  unfold candidates. apply KDTreeFacts.filter_all_true. apply Forall_forall. reflexivity.
Qed.

(** With the default bound and a non-empty tree, the index returned for a
    query point is that of a nearest point. *)
Lemma nearest_index pts x :
  pts <> [] ->
  nearest_to pts x (hd (n (mk pts)) (query_row (mk pts) 1 None x)).
Proof.
  intros Hne. unfold query_row. rewrite candidates_all.
  change (n (mk pts)) with (length pts).
  destruct (sort_by (dist_to (mk pts) x) (seq 0 (length pts))) as [|i rest] eqn:Es.
  - pose proof (KDTreeFacts.sort_by_length (dist_to (mk pts) x) (seq 0 (length pts))) as Hl.
    rewrite Es, length_seq in Hl. destruct pts; [congruence | discriminate].
  - cbn [firstn app hd].
    destruct (KDTreeFacts.sort_by_hd_min (dist_to (mk pts) x) (seq 0 (length pts)) i)
      as [Hin Hmin]; [now rewrite Es|].
    split.
    + apply in_seq in Hin. lia.
    + intros j Hj. apply Hmin. apply in_seq. lia.
Qed.

Lemma query_nearest_nth pts coords q x :
  pts <> [] -> nth_error coords q = Some x ->
  exists i, nth_error (query_nearest (mk pts) None coords) q = Some i /\
            nearest_to pts x i.
Proof.
  intros Hne Hq. unfold query_nearest. rewrite nth_error_map, Hq. simpl.
  eexists. split; [reflexivity|]. now apply nearest_index.
Qed.

Lemma query_nearest_in_bounds pts coords :
  pts <> [] ->
  Forall (fun i => (i < length pts)%nat) (query_nearest (mk pts) None coords).
Proof.
  intros Hne. unfold query_nearest. apply Forall_forall. intros i Hin.
  apply in_map_iff in Hin. destruct Hin as (x & <- & _).
  now destruct (nearest_index pts x Hne).
Qed.

(** An empty tree answers every query with its sentinel, 0. *)
Lemma query_nearest_empty coords :
  query_nearest (mk []) None coords = map (fun _ => O) coords.
Proof. reflexivity. Qed.

Lemma pixel_row_length w y :
  length (map (fun x => (INR x, INR y)) (seq 0 w)) = w.
Proof. now rewrite length_map, length_seq. Qed.

Lemma pixel_coords_from s h w :
  length (flat_map (fun y => map (fun x => (INR x, INR y)) (seq 0 w)) (seq s h))
  = (h * w)%nat /\
  forall y x, (y < h)%nat -> (x < w)%nat ->
    nth_error (flat_map (fun y => map (fun x => (INR x, INR y)) (seq 0 w)) (seq s h))
              (y * w + x) = Some (INR x, INR (s + y)).
Proof.
  revert s. induction h as [|h IH]; intros s.
  - split; [reflexivity | intros; lia].
  - cbn [seq flat_map]. destruct (IH (S s)) as [Hlen Hnth]. split.
    + rewrite length_app, pixel_row_length, Hlen. lia.
    + intros y x Hy Hx. destruct y as [|y].
      * rewrite nth_error_app1 by (rewrite pixel_row_length; lia).
        rewrite nth_error_map. simpl Nat.add at 1.
        rewrite nth_error_seq. replace (x <? w)%nat with true
          by (symmetry; apply Nat.ltb_lt; lia).
        simpl. now rewrite Nat.add_0_r.
      * rewrite nth_error_app2 by (rewrite pixel_row_length; lia).
        rewrite pixel_row_length.
        replace (S y * w + x - w)%nat with (y * w + x)%nat by lia.
        rewrite Hnth by lia. do 3 f_equal. lia.
Qed.

Lemma pixel_coords_length h w : length (pixel_coords h w) = (h * w)%nat.
Proof. apply (pixel_coords_from 0 h w). Qed.

Lemma pixel_coords_nth h w y x :
  (y < h)%nat -> (x < w)%nat ->
  nth_error (pixel_coords h w) (y * w + x) = Some (INR x, INR y).
Proof. intros Hy Hx. now apply (pixel_coords_from 0 h w). Qed.

Lemma chunks_spec {A : Type} (w : nat) :
  forall h (l : list A),
    length l = (h * w)%nat ->
    length (Np.chunks h w l) = h /\
    Forall (fun row => length row = w) (Np.chunks h w l) /\
    forall y x, (y < h)%nat -> (x < w)%nat ->
      exists row, nth_error (Np.chunks h w l) y = Some row /\
                  nth_error row x = nth_error l (y * w + x).
Proof.
  induction h as [|h IH]; intros l Hl.
  - simpl. split; [reflexivity|]. split; [constructor | intros; lia].
  - cbn [Np.chunks].
    assert (Hs : length (skipn w l) = (h * w)%nat) by (rewrite length_skipn; lia).
    destruct (IH _ Hs) as (Hlen & Hall & Hnth).
    split; [simpl; now rewrite Hlen|]. split.
    + constructor; [rewrite length_firstn; lia | exact Hall].
    + intros y x Hy Hx. destruct y as [|y].
      * exists (firstn w l). split; [reflexivity|].
        rewrite nth_error_firstn.
        replace (x <? w)%nat with true by (symmetry; apply Nat.ltb_lt; lia).
        reflexivity.
      * destruct (Hnth y x ltac:(lia) Hx) as (row & Hrow & Hx').
        exists row. split; [exact Hrow|].
        rewrite Hx', nth_error_skipn. f_equal. lia.
Qed.

(** The label image for a non-empty interior set. *)
Lemma labeled_image_spec fc labels h w :
  fc <> [] -> length labels = length fc ->
  exists img,
    labeled_image fc labels (h, w) = Ok img /\
    length img = h /\
    Forall (fun row => length row = w) img /\
    forall y x, (y < h)%nat -> (x < w)%nat ->
      exists i l row,
        nearest_to fc (INR x, INR y) i /\
        nth_error labels i = Some l /\
        nth_error img y = Some row /\
        nth_error row x = Some l.
Proof.
  intros Hne Hlab. unfold labeled_image. cbn [fst snd].
  pose proof (query_nearest_in_bounds fc (pixel_coords h w) Hne) as Hb.
  rewrite <- Hlab in Hb.
  destruct (take_ok labels _ Hb) as (cls & Hcls & Hlen).
  rewrite Hcls. simpl bind.
  assert (Hsize : length cls = (h * w)%nat).
  { rewrite Hlen. unfold query_nearest.
    now rewrite length_map, pixel_coords_length. }
  unfold Np.reshape. rewrite Hsize, Nat.eqb_refl.
  destruct (chunks_spec w h cls Hsize) as (Hh & Hw & Hnth).
  exists (Np.chunks h w cls). repeat split; try assumption.
  intros y x Hy Hx.
  destruct (Hnth y x Hy Hx) as (row & Hrow & Hx').
  destruct (query_nearest_nth fc _ _ _ Hne (pixel_coords_nth h w y x Hy Hx))
    as (i & Hi & Hnear).
  assert (Hq : (y * w + x < length cls)%nat) by (rewrite Hsize; nia).
  destruct (nth_error cls (y * w + x)) as [l|] eqn:El;
    [|apply nth_error_None in El; lia].
  apply take_inv in Hcls. destruct Hcls as (_ & _ & Hget).
  destruct (Hget _ _ El) as (i' & Hi' & Hl).
  rewrite Hi in Hi'. injection Hi' as <-.
  exists i, l, row. repeat split; try assumption; apply Hnear.
Qed.

(** Without interior points the first pixel already leaves the label
    vector. *)
Lemma labeled_image_empty h w :
  (0 < h)%nat -> (0 < w)%nat ->
  labeled_image [] [] (h, w) = Raise IndexError.
Proof.
  intros Hh Hw. unfold labeled_image. rewrite query_nearest_empty.
  destruct h as [|h]; [lia|]. destruct w as [|w]; [lia|]. reflexivity.
Qed.

End LabelFacts.

Lemma labeled_image_shape fc labels h w img :
  labeled_image fc labels (h, w) = Ok img ->
  length img = h /\ Forall (fun row => length row = w) img.
Proof.
  unfold labeled_image. cbn [fst snd].
  destruct (Np.take labels _) as [cls|e]; [|discriminate].
  simpl bind. unfold Np.reshape.
  destruct (Nat.eqb_spec (length cls) (h * w)) as [Hsize|_]; [|discriminate].
  intros H. injection H as <-.
  destruct (LabelFacts.chunks_spec w h cls Hsize) as (Hh & Hw & _). auto.
Qed.

(** Whenever the whole pipeline returns, the image has the shape asked for. *)
Lemma segment_shape cluster_labels atom_positions h w img :
  segment cluster_labels atom_positions (h, w) = Ok img ->
  length img = h /\ Forall (fun row => length row = w) img.
Proof.
  unfold segment.
  destruct (get_nn_features _ _ _ _) as [features|e]; [|discriminate]. simpl bind.
  destruct (Np.mask_select features _) as [ff|e]; [|discriminate]. simpl bind.
  destruct (Np.mask_select atom_positions _) as [fc|e]; [|discriminate]. simpl bind.
  destruct (MinMaxScaler.fit_transform ff) as [sf|e]; [|discriminate]. simpl bind.
  destruct (PCA.fit_transform 8 sf) as [xy|e]; [|discriminate]. simpl bind.
  destruct (cluster_labels (datafit sf)) as [labels|e]; [|discriminate]. simpl bind.
  destruct (PCA.fit_transform 2 (datafit sf)) as [xy'|e]; [|discriminate]. simpl bind.
  apply labeled_image_shape.
Qed.

(** ** The rescaling in binary64 *)

Module Float64Facts.

Import Floats.
Import SpecFloat.
Import MinMaxScaler64.







End Float64Facts.

(** * The claims *)

(** C1, on the code.  For the hexagonal ring the code takes the increments
    of the six sorted angles only: five steps of 60 degrees, which sum to 300
    degrees and not to a full turn (their mean is 60 degrees and their
    standard deviation 0); the increments of the closed ring, as the claim
    describes them, are six and sum to a full turn. *)
Theorem hexagon_increments_miss_wraparound :
  exists incs,
    angle_increments hex_angles = Ok incs /\
    length incs = 5%nat /\
    Forall (fun d => d = PI / 3) incs /\
    Np.sum incs = 5 * (PI / 3) /\
    Np.sum incs <> two_pi /\
    Np.mean incs = Np.Fin (PI / 3) /\
    Np.std incs = Np.Fin 0 /\
    exists closed,
      wrapped_increments hex_angles = Ok closed /\
      length closed = 6%nat /\ Np.sum closed = two_pi.
Proof.
  pose proof PI_RGT_0 as Hpi.
  assert (Hsorted : Np.sort hex_angles = hex_angles).
  { apply sort_of_sorted. unfold hex_angles.
    repeat (constructor; try lra). }
  exists (Np.diff hex_angles).
  unfold angle_increments, Np.array. rewrite Hsorted.
  split; [reflexivity|]. split; [reflexivity|].
  unfold hex_angles. cbn [Np.diff Np.sum Np.mean Np.std Np.var map length].
  split; [repeat constructor; lra|].
  split; [lra|]. split; [unfold two_pi; lra|].
  replace (INR 5) with 5 by (simpl; lra).
  split; [|split].
  - f_equal. lra.
  - f_equal.
    match goal with |- sqrt ?v = 0 => replace v with 0; [apply sqrt_0|] end.
    unfold Np.var. cbn [Np.sum map length].
    replace (INR 5) with 5 by (simpl; lra). field.
  - destruct (wrapped_increments_sum hex_angles) as (closed & Hc & Hl & Hsum);
      [discriminate|].
    exists closed. now repeat split.
Qed.

(** C2, with the cap.  On the tree built over the point set, every feature
    vector that [get_nn_features] returns has, at index 5, the number of
    other points strictly within the search radius, capped at k - 1; the
    entry is therefore at most k - 1. *)
Theorem vertices_is_capped_neighbour_count coordinates r k feats :
  get_nn_features (mk coordinates) coordinates r k = Ok feats ->
  length feats = length coordinates /\
  forall i row,
    nth_error feats i = Some row ->
    nth 5 row Np.NaN = Np.Fin (INR (Nat.min (k - 1) (count_others coordinates r i))) /\
    (Nat.min (k - 1) (count_others coordinates r i) <= k - 1)%nat.
Proof.
  intros H. destruct (get_nn_features_rows _ _ _ _ H) as [Hlen Hrows].
  split; [exact Hlen|]. intros i row Hrow.
  destruct (Hrows i row Hrow) as (_ & Hv & _).
  split; [exact Hv | apply Nat.le_min_l].
Qed.

(** The three points on a line, radius 5 and k = 2: the array is returned
    and the statement applies to it. *)
Lemma vertices_is_capped_neighbour_count_witness :
  exists feats,
    get_nn_features (mk line3) line3 5 2 = Ok feats /\
    length feats = length line3 /\
    forall i row,
      nth_error feats i = Some row ->
      nth 5 row Np.NaN = Np.Fin (INR (Nat.min (2 - 1) (count_others line3 5 i))) /\
      (Nat.min (2 - 1) (count_others line3 5 i) <= 2 - 1)%nat.
Proof.
  destruct (get_nn_features_total line3 5 2) as [feats Hf].
  - lia.
  - intros i Hi. rewrite line3_counts by exact Hi. lia.
  - exists feats. split; [exact Hf|].
    exact (vertices_is_capped_neighbour_count line3 5 2 feats Hf).
Defined.

(** C2, as stated, fails: with k = 2 the middle one of three points on a
    line has two neighbours within the radius 5, and its feature vector
    counts one. *)
Lemma vertices_undercounts_beyond_cap :
  exists feats row,
    get_nn_features (mk line3) line3 5 2 = Ok feats /\
    nth_error feats 1 = Some row /\
    nth 5 row Np.NaN = Np.Fin (INR 1) /\
    count_others line3 5 1 = 2%nat /\
    nth 5 row Np.NaN <> Np.Fin (INR (count_others line3 5 1)).
Proof.
  destruct (get_nn_features_total line3 5 2) as [feats Hf].
  - lia.
  - intros i Hi. rewrite line3_counts by exact Hi. lia.
  - destruct (get_nn_features_rows _ _ _ _ Hf) as [Hlen Hrows].
    destruct (nth_error feats 1) as [row|] eqn:Er.
    + exists feats, row. destruct (Hrows 1%nat row Er) as (_ & Hv & _).
      rewrite line3_counts in * by (simpl; lia).
      repeat split; try assumption.
      rewrite Hv. simpl. intros E. injection E as E. lra.
    + apply nth_error_None in Er. rewrite Hlen in Er. simpl in Er. lia.
Qed.

(** C3, with the failing case.  For the empty point set [get_nn_features] returns the
    empty feature array.  On the tree built over a point set it returns a
    feature array, one row of 8 entries per point, when every point has
    another point strictly within the search radius; a point without one
    makes it raise ValueError. *)
Theorem get_nn_features_error_conditions :
  (forall tree_c r k, (2 <= k)%nat -> get_nn_features tree_c [] r k = Ok []) /\
  (forall coordinates r k,
      (2 <= k)%nat ->
      (forall i, (i < length coordinates)%nat ->
                 (1 <= count_others coordinates r i)%nat) ->
      exists feats,
        get_nn_features (mk coordinates) coordinates r k = Ok feats /\
        length feats = length coordinates /\
        Forall (fun row => length row = 8%nat) feats) /\
  (forall coordinates r k i,
      (2 <= k)%nat -> (i < length coordinates)%nat ->
      count_others coordinates r i = O ->
      get_nn_features (mk coordinates) coordinates r k = Raise ValueError).
Proof.
  split; [|split].
  - intros tree_c r k Hk. now rewrite get_nn_features_unfold.
  - intros coordinates r k Hk Hall.
    destruct (get_nn_features_total coordinates r k Hk Hall) as [feats Hf].
    exists feats. destruct (get_nn_features_rows _ _ _ _ Hf) as [Hlen Hrows].
    repeat split; try assumption.
    apply Forall_forall. intros row Hin.
    apply In_nth_error in Hin. destruct Hin as [i Hi].
    now destruct (Hrows i row Hi).
  - intros coordinates r k i. apply get_nn_features_isolated.
Qed.

(** The three cases on concrete inputs: no point, three points on a line,
    one point alone. *)
Lemma get_nn_features_error_conditions_witness :
  get_nn_features (mk line3) [] 12 10 = Ok [] /\
  (exists feats,
      get_nn_features (mk line3) line3 5 2 = Ok feats /\
      length feats = length line3 /\
      Forall (fun row => length row = 8%nat) feats) /\
  get_nn_features (mk lonely) lonely 12 10 = Raise ValueError.
Proof.
  destruct get_nn_features_error_conditions as (Hempty & Hok & Hraise).
  split; [|split].
  - apply Hempty. lia.
  - apply Hok; [lia|]. intros i Hi. rewrite line3_counts by exact Hi. lia.
  - apply (Hraise lonely 12 10%nat 0%nat); [lia | simpl; lia | reflexivity].
Defined.

(** C3, as stated, fails: a point set of one point, which has no neighbour
    within the search radius, makes [get_nn_features] raise. *)
Lemma lonely_point_raises :
  get_nn_features (mk lonely) lonely 12 10 = Raise ValueError.
Proof.
  apply (get_nn_features_isolated lonely 12 10%nat 0%nat); [lia | simpl; lia | reflexivity].
Qed.

(** C4.  When the hash is not the expected digest the cell prints the
    warning and nothing else, ends with status 0, and so does not stop the
    run. *)
Theorem hash_mismatch_only_warns hash :
  hash <> HashCell.expected_digest ->
  HashCell.stdout (HashCell.hash_check hash) =
    ["Wrong hash! This may be the wrong file, or it may have been tampered with."%string] /\
  HashCell.exit_status (HashCell.hash_check hash) = O /\
  HashCell.aborts_run (HashCell.hash_check hash) = false.
Proof.
  intros Hne. unfold HashCell.hash_check, HashCell.test_status.
  destruct (String.eqb hash "") eqn:E0; [simpl; auto|].
  destruct (String.eqb_spec hash HashCell.expected_digest) as [Heq|_];
    [contradiction | simpl; auto].
Qed.

(** A digest that is not the expected one. *)
Lemma hash_mismatch_only_warns_witness :
  HashCell.stdout (HashCell.hash_check "00ff") =
    ["Wrong hash! This may be the wrong file, or it may have been tampered with."%string] /\
  HashCell.exit_status (HashCell.hash_check "00ff") = O /\
  HashCell.aborts_run (HashCell.hash_check "00ff") = false.
Proof.
  apply (hash_mismatch_only_warns "00ff"). discriminate.
Defined.

(** C5.  The filtered feature array holds, in order, exactly the rows whose
    entry 5 is at least 5; a neighbour count of 4 is excluded and a count of
    5 is retained. *)
Theorem interior_filter_threshold :
  (forall features,
      Np.mask_select features (off_edge features) =
      Ok (filter (fun row => Np.ge (nth 5 row Np.NaN) 5) features)) /\
  (forall v : nat, Np.ge (Np.Fin (INR v)) 5 = (5 <=? v)%nat) /\
  Np.ge (Np.Fin (INR 4)) 5 = false /\
  Np.ge (Np.Fin (INR 5)) 5 = true.
Proof.
  split; [|split; [|split]].
  - intros features. rewrite off_edge_map. apply mask_select_map.
  - exact ge_5_count.
  - now rewrite ge_5_count.
  - now rewrite ge_5_count.
Qed.

Module Rescale64.

Import Floats.
Import MinMaxScaler64.




End Rescale64.

(** C7.  With a non-empty interior set and one label per interior point,
    the label image has the dimensions of the sub-image, and the entry of
    every pixel is the label of an interior point nearest to that pixel. *)
Theorem label_image_nearest_label fc labels h w :
  fc <> [] -> length labels = length fc ->
  exists img,
    labeled_image fc labels (h, w) = Ok img /\
    length img = h /\
    Forall (fun row => length row = w) img /\
    forall y x, (y < h)%nat -> (x < w)%nat ->
      exists i l row,
        nearest_to fc (INR x, INR y) i /\
        nth_error labels i = Some l /\
        nth_error img y = Some row /\
        nth_error row x = Some l.
Proof. apply LabelFacts.labeled_image_spec. Qed.

(** Three interior points with the labels 0, 1, 2 and an image of 2 x 3
    pixels. *)
Lemma label_image_nearest_label_witness :
  exists img,
    labeled_image line3 [0%Z; 1%Z; 2%Z] (2%nat, 3%nat) = Ok img /\
    length img = 2%nat /\
    Forall (fun row => length row = 3%nat) img /\
    forall y x, (y < 2)%nat -> (x < 3)%nat ->
      exists i l row,
        nearest_to line3 (INR x, INR y) i /\
        nth_error [0%Z; 1%Z; 2%Z] i = Some l /\
        nth_error img y = Some row /\
        nth_error row x = Some l.
Proof.
  apply (label_image_nearest_label line3 [0%Z; 1%Z; 2%Z] 2 3).
  - discriminate.
  - reflexivity.
Defined.

(** C8.  [get_nn_features] queries the tree it is given from outside.  When
    that tree is the one built over [coordinates], every neighbour index that
    passes the sentinel filter is below the number of points, the lookup
    [coordinates[nns]] succeeds, and no IndexError leaves the loop; with a
    tree over more points than [coordinates] the lookup can fail. *)
Theorem neighbour_lookup_in_bounds :
  (forall coordinates k ub x,
      Forall (fun j => (j < length coordinates)%nat)
             (drop_sentinel coordinates (tl (query_row (mk coordinates) k ub x))) /\
      exists nn_coords,
        Np.take coordinates
                (drop_sentinel coordinates (tl (query_row (mk coordinates) k ub x)))
        = Ok nn_coords) /\
  (forall coordinates r k,
      get_nn_features (mk coordinates) coordinates r (S (S k)) <> Raise IndexError) /\
  get_nn_features (mk line3) [(0, 0); (1, 0)] 5 10 = Raise IndexError.
Proof.
  split; [|split].
  - intros coordinates k ub x.
    pose proof (KDTreeFacts.surviving_in_bounds coordinates k ub x) as Hb.
    split; [exact Hb|].
    destruct (take_ok coordinates _ Hb) as (vals & Hv & _). eauto.
  - intros coordinates r k H.
    apply get_nn_features_raise in H; [|lia]. destruct H as [H _]. discriminate.
  - apply ambient_tree_out_of_bounds; unfold n; simpl; lia.
Qed.

(** C9.  With at least one interior point every pixel's query result is a
    valid index into the label vector and the stage returns an image with a
    label at every pixel; without interior points every query result is out
    of the bounds of the (empty) label vector, and the stage fails with
    IndexError as soon as the image has a pixel. *)
Theorem label_propagation_needs_interior :
  (forall fc labels h w,
      fc <> [] -> length labels = length fc ->
      Forall (fun i => (i < length labels)%nat)
             (query_nearest (mk fc) None (pixel_coords h w)) /\
      exists img,
        labeled_image fc labels (h, w) = Ok img /\
        length img = h /\ Forall (fun row => length row = w) img) /\
  (forall h w,
      Forall (fun i => nth_error (@nil Z) i = None)
             (query_nearest (mk []) None (pixel_coords h w)) /\
      ((0 < h)%nat -> (0 < w)%nat ->
       labeled_image [] [] (h, w) = Raise IndexError)).
Proof.
  split.
  - intros fc labels h w Hne Hlab. split.
    + rewrite Hlab. now apply LabelFacts.query_nearest_in_bounds.
    + destruct (LabelFacts.labeled_image_spec fc labels h w Hne Hlab)
        as (img & Himg & Hh & Hw & _).
      eauto.
  - intros h w. split.
    + apply Forall_forall. intros i _. now destruct i.
    + apply LabelFacts.labeled_image_empty.
Qed.

(** Three interior points, and none, for an image of 2 x 3 pixels. *)
Lemma label_propagation_needs_interior_witness :
  (Forall (fun i => (i < length [0%Z; 1%Z; 2%Z])%nat)
          (query_nearest (mk line3) None (pixel_coords 2 3)) /\
   exists img,
     labeled_image line3 [0%Z; 1%Z; 2%Z] (2%nat, 3%nat) = Ok img /\
     length img = 2%nat /\ Forall (fun row => length row = 3%nat) img) /\
  labeled_image [] [] (2%nat, 3%nat) = Raise IndexError.
Proof.
  destruct label_propagation_needs_interior as [Hsome Hnone].
  split.
  - apply (Hsome line3 [0%Z; 1%Z; 2%Z] 2%nat 3%nat); [discriminate | reflexivity].
  - apply (proj2 (Hnone 2%nat 3%nat)); lia.
Defined.

Section Alignment.

Variable cluster_labels : list (list Np.float64) -> result (list Z).

(** sklearn's contract: [labels_] has one entry per sample. *)
Hypothesis cluster_labels_length :
  forall X labels, cluster_labels X = Ok labels -> length labels = length X.

(** C10.  The interior mask selects the same ascending row indices from the
    feature array and from the position array, so entry [i] of both filtered
    arrays comes from the same point, one that passes the mask; the rows
    handed to the clustering are computed row by row from the filtered
    features in that order, and the label vector has one entry per filtered
    row. *)
Theorem positions_features_labels_aligned
  (features : list (list Np.float64)) (atom_positions : list point) :
  length atom_positions = length features ->
  exists filtered_features filtered_coordinates,
    Np.mask_select features (off_edge features) = Ok filtered_features /\
    Np.mask_select atom_positions (off_edge features) = Ok filtered_coordinates /\
    length filtered_features = length (selected (off_edge features)) /\
    length filtered_coordinates = length (selected (off_edge features)) /\
    StronglySorted lt (selected (off_edge features)) /\
    (forall i j,
        nth_error (selected (off_edge features)) i = Some j ->
        nth_error filtered_features i = nth_error features j /\
        nth_error filtered_coordinates i = nth_error atom_positions j /\
        nth j (off_edge features) false = true) /\
    (forall scaled_features labels_,
        MinMaxScaler.fit_transform filtered_features = Ok scaled_features ->
        cluster_labels (datafit scaled_features) = Ok labels_ ->
        datafit scaled_features =
          map (fun row =>
                 let scaled :=
                   map (fun '(p, x) => MinMaxScaler.transform_entry p x)
                       (combine (MinMaxScaler.fit filtered_features) row) in
                 [nth 1 scaled Np.NaN; nth 4 scaled Np.NaN; nth 5 scaled Np.NaN])
              filtered_features /\
        length labels_ = length filtered_features /\
        length labels_ = length filtered_coordinates).
Proof.
  intros Hlen.
  assert (Hm : length (off_edge features) = length features)
    by (unfold off_edge, column; now rewrite !length_map).
  destruct (MaskFacts.mask_select_rows (off_edge features) features Hm)
    as (ff & Hff & Hffl & Hffr).
  destruct (MaskFacts.mask_select_rows (off_edge features) atom_positions
              ltac:(congruence)) as (fc & Hfc & Hfcl & Hfcr).
  exists ff, fc.
  split; [exact Hff|]. split; [exact Hfc|]. split; [exact Hffl|].
  split; [exact Hfcl|]. split; [apply MaskFacts.selected_sorted|]. split.
  - intros i j Hij. destruct (Hffr i j Hij) as [H1 H2].
    destruct (Hfcr i j Hij) as [H3 _]. now repeat split.
  - intros scaled_features labels_ Hscale Hcl.
    apply cluster_labels_length in Hcl.
    assert (Hs : scaled_features = MinMaxScaler.transform (MinMaxScaler.fit ff) ff).
    { unfold MinMaxScaler.fit_transform in Hscale.
      destruct ff as [|[|e0 r0] ff']; [discriminate | discriminate|].
      now injection Hscale. }
    assert (Hd : length (datafit scaled_features) = length ff).
    { rewrite Hs. unfold datafit, MinMaxScaler.transform. now rewrite !length_map. }
    split; [|split].
    + rewrite Hs. unfold datafit, MinMaxScaler.transform. now rewrite map_map.
    + congruence.
    + congruence.
Qed.

End Alignment.

(** Two feature rows and two positions, with a clustering that returns one
    label per sample. *)
Lemma positions_features_labels_aligned_witness :
  exists filtered_features filtered_coordinates,
    Np.mask_select two_rows (off_edge two_rows) = Ok filtered_features /\
    Np.mask_select [(0, 0); (10, 0)] (off_edge two_rows) = Ok filtered_coordinates /\
    length filtered_features = length (selected (off_edge two_rows)) /\
    length filtered_coordinates = length (selected (off_edge two_rows)) /\
    StronglySorted lt (selected (off_edge two_rows)) /\
    (forall i j,
        nth_error (selected (off_edge two_rows)) i = Some j ->
        nth_error filtered_features i = nth_error two_rows j /\
        nth_error filtered_coordinates i = nth_error [(0, 0); (10, 0)] j /\
        nth j (off_edge two_rows) false = true) /\
    (forall scaled_features labels_,
        MinMaxScaler.fit_transform filtered_features = Ok scaled_features ->
        one_cluster (datafit scaled_features) = Ok labels_ ->
        datafit scaled_features =
          map (fun row =>
                 let scaled :=
                   map (fun '(p, x) => MinMaxScaler.transform_entry p x)
                       (combine (MinMaxScaler.fit filtered_features) row) in
                 [nth 1 scaled Np.NaN; nth 4 scaled Np.NaN; nth 5 scaled Np.NaN])
              filtered_features /\
        length labels_ = length filtered_features /\
        length labels_ = length filtered_coordinates).
Proof.
  apply (positions_features_labels_aligned one_cluster).
  - intros X labels H. unfold one_cluster in H. injection H as <-.
    apply length_map.
  - reflexivity.
Defined.

(** * Further properties *)

(** ** The feature row of a point, spelled out *)

Lemma take_map_nth {A : Type} (arr : list A) (idx : list nat) (vals : list A) (d : A) :
  Np.take arr idx = Ok vals -> vals = map (fun j => nth j arr d) idx.
Proof.
  unfold Np.take. revert vals. induction idx as [|j t IH]; intros vals H; simpl in H.
  - now injection H as <-.
  - destruct (nth_error arr j) as [a|] eqn:Ea; [|discriminate]. simpl in H.
    destruct (mapM _ t) as [vs|e] eqn:Et; [|discriminate]. simpl in H.
    injection H as <-. simpl. f_equal; [|now apply IH].
    symmetry. now apply nth_error_nth.
Qed.

(** The angle of neighbour [j] as seen from [x], in [0, 2 pi). *)
Lemma angle_in_range (v : point) :
  0 <= Np.mod_ (Np.arctan2 (snd v) (fst v)) two_pi < two_pi.
Proof. apply mod_range. unfold two_pi. pose proof PI_RGT_0. lra. Qed.

Lemma nn_row_explicit coordinates i nns row :
  nn_row coordinates i nns = Ok row ->
  exists incs amin lmin lmax,
    let nbrs := drop_sentinel coordinates nns in
    let x := nth i coordinates (0, 0) in
    let lengths := map (dist_to (mk coordinates) x) nbrs in
    let angles :=
      map (fun j => let v := sub_pt (nth j coordinates (0, 0)) x in
                    Np.mod_ (Np.arctan2 (snd v) (fst v)) two_pi) nbrs in
    nbrs <> [] /\
    angle_increments angles = Ok incs /\
    Np.min angles = Ok amin /\
    Np.min lengths = Ok lmin /\ Np.max lengths = Ok lmax /\
    row = [Np.mean lengths; Np.std lengths; Np.mean incs; Np.std incs;
           Np.Fin amin; Np.Fin (INR (length nbrs)); Np.Fin lmin; Np.Fin lmax].
Proof.
  intros H. pose proof (nn_row_inv _ _ _ _ H) as (Hne & _ & _).
  unfold nn_row in H.
  destruct (Np.take coordinates (drop_sentinel coordinates nns)) as [vals|e] eqn:Et;
    [|discriminate].
  apply (take_map_nth _ _ _ (0, 0)) in Et. subst vals.
  simpl bind in H. rewrite !map_map in H.
  change (fun x : nat => Np.norm (sub_pt (nth x coordinates (0, 0))
                                        (nth i coordinates (0, 0))))
    with (dist_to (mk coordinates) (nth i coordinates (0, 0))) in H.
  set (x := nth i coordinates (0, 0)) in *.
  set (lengths := map (dist_to (mk coordinates) x) (drop_sentinel coordinates nns)) in *.
  match type of H with
  | context [angle_increments ?a] => set (angles := a) in *
  end.
  destruct (angle_increments angles) as [incs|e] eqn:Ei;
    cbn [bind] in H; [|discriminate].
  destruct (Np.min angles) as [amin|e] eqn:Ea; cbn [bind] in H; [|discriminate].
  destruct (Np.min lengths) as [lmin|e] eqn:El; cbn [bind] in H; [|discriminate].
  destruct (Np.max lengths) as [lmax|e] eqn:Em; cbn [bind] in H; [|discriminate].
  injection H as <-.
  exists incs, amin, lmin, lmax. cbn zeta.
  repeat split; assumption.
Qed.

Lemma In_tl {A : Type} (l : list A) (a : A) : In a (tl l) -> In a l.
Proof. destruct l; simpl; auto. Qed.

(** The neighbours kept for a point lie strictly within the radius. *)
Lemma kept_neighbours_within coordinates r k x :
  Forall (fun j => (j < length coordinates)%nat /\
                   0 <= dist_to (mk coordinates) x j < r)
         (tl (firstn k (sort_by (dist_to (mk coordinates) x)
                                (candidates (mk coordinates) (Some r) x)))).
Proof.
  apply Forall_forall. intros j Hj.
  apply In_tl, In_firstn, KDTreeFacts.sort_by_In in Hj.
  unfold candidates in Hj. apply filter_In in Hj. destruct Hj as [Hj Hw].
  apply in_seq in Hj. change (n (mk coordinates)) with (length coordinates) in Hj.
  split; [lia|]. split; [apply KDTreeFacts.norm_nonneg|].
  unfold within in Hw. now destruct (Rlt_dec _ r).
Qed.

Lemma feature_row_spec coordinates r k feats i row :
  get_nn_features (mk coordinates) coordinates r k = Ok feats ->
  nth_error feats i = Some row ->
  exists nbrs incs amin lmin lmax,
    let x := nth i coordinates (0, 0) in
    let lengths := map (dist_to (mk coordinates) x) nbrs in
    let angles :=
      map (fun j => let v := sub_pt (nth j coordinates (0, 0)) x in
                    Np.mod_ (Np.arctan2 (snd v) (fst v)) two_pi) nbrs in
    (i < length coordinates)%nat /\
    nbrs = tl (firstn k (sort_by (dist_to (mk coordinates) x)
                                 (candidates (mk coordinates) (Some r) x))) /\
    nbrs <> [] /\
    length nbrs = reported coordinates r k i /\
    angle_increments angles = Ok incs /\
    Np.min angles = Ok amin /\
    Np.min lengths = Ok lmin /\ Np.max lengths = Ok lmax /\
    row = [Np.mean lengths; Np.std lengths; Np.mean incs; Np.std incs;
           Np.Fin amin; Np.Fin (INR (length nbrs)); Np.Fin lmin; Np.Fin lmax].
Proof.
  intros H Hrow. pose proof (get_nn_features_ok_k _ _ _ _ _ H) as Hk.
  rewrite get_nn_features_unfold in H by exact Hk.
  destruct (mapM_nth_error _ _ _ H i row Hrow) as ([j nns] & Hel & Hnn).
  apply loop_element in Hel. destruct Hel as (-> & Hi & ->).
  apply nn_row_explicit in Hnn.
  destruct Hnn as (incs & amin & lmin & lmax & Hnn). cbn zeta in Hnn.
  pose proof (KDTreeFacts.surviving_count coordinates r k i Hi ltac:(lia)) as Hc.
  rewrite KDTreeFacts.drop_sentinel_query_row in *.
  eexists _, incs, amin, lmin, lmax. cbn zeta.
  split; [exact Hi|]. split; [reflexivity|].
  destruct Hnn as (H1 & H2 & H3 & H4 & H5 & H6).
  repeat split; assumption.
Qed.

(** ** Lengths *)





(** ** Angles and increments *)

Lemma angle_increments_eq angles incs :
  angle_increments angles = Ok incs -> incs = Np.diff (Np.sort angles).
Proof.
  unfold angle_increments, Np.array.
  destruct (Np.min angles); simpl; [|discriminate]. now intros H; injection H.
Qed.

Lemma diff_sort_length angles :
  length (Np.diff (Np.sort angles)) = (length angles - 1)%nat.
Proof.
  pose proof (Permutation_length (sort_perm angles)) as Hp.
  destruct (Np.sort angles) as [|s ss]; [simpl in *; lia|].
  rewrite diff_length. simpl in Hp. lia.
Qed.

Lemma sorted_first_le_last a l :
  StronglySorted Rle (a :: l) -> a <= last (a :: l) a.
Proof.
  intros Hs. inversion Hs as [|? ? _ Hall]; subst.
  destruct l as [|b t]; [simpl; lra|].
  rewrite Forall_forall in Hall. apply Hall.
  destruct (exists_last (l := b :: t) ltac:(discriminate)) as (l' & z & E).
  change (last (a :: b :: t) a) with (last (b :: t) a).
  rewrite E, last_last. apply in_or_app. right. now left.
Qed.

(** The increments the code computes are non-negative in sum. *)
Lemma increments_sum_nonneg angles : 0 <= Np.sum (Np.diff (Np.sort angles)).
Proof.
  pose proof (sort_sorted angles) as Hs.
  destruct (Np.sort angles) as [|s ss]; [simpl; lra|].
  rewrite sum_diff. apply sorted_first_le_last in Hs. lra.
Qed.

Lemma feature_row_nan_or_finite coordinates r k feats i row :
  get_nn_features (mk coordinates) coordinates r k = Ok feats ->
  nth_error feats i = Some row ->
  (reported coordinates r k i = 1%nat ->
   nth_error row 2 = Some Np.NaN /\ nth_error row 3 = Some Np.NaN) /\
  ((2 <= reported coordinates r k i)%nat -> finite_row row).
Proof.
  intros H Hrow.
  destruct (feature_row_spec _ _ _ _ _ _ H Hrow)
    as (nbrs & incs & amin & lmin & lmax & Hspec).
  cbn zeta in Hspec.
  destruct Hspec as (Hi & Hn & Hne & Hlen & Hinc & _ & _ & _ & ->).
  apply angle_increments_eq in Hinc.
  match type of Hinc with
  | _ = Np.diff (Np.sort ?a) => pose proof (diff_sort_length a) as Hd
  end.
  rewrite <- Hinc, length_map, Hlen in Hd.
  assert (Hl : exists d0 ds,
             map (dist_to (mk coordinates) (nth i coordinates (0, 0))) nbrs = d0 :: ds).
  { destruct nbrs; [congruence | simpl; eauto]. }
  destruct Hl as (d0 & ds & ->).
  split.
  - intros H1. rewrite H1 in Hd. destruct incs; [|discriminate]. split; reflexivity.
  - intros H2. destruct incs as [|c cs]; [simpl in Hd; lia|].
    unfold finite_row. cbn [Np.mean Np.std]. repeat constructor; eauto.
Qed.

(** X2.  A point with exactly one neighbour gets NaN as mean and standard
    deviation of the angular increments; a point with two or more has a
    feature row of numbers only. *)
Theorem single_neighbour_gives_nan coordinates r k feats i row :
  get_nn_features (mk coordinates) coordinates r k = Ok feats ->
  nth_error feats i = Some row ->
  (reported coordinates r k i = 1%nat ->
   nth_error row 2 = Some Np.NaN /\ nth_error row 3 = Some Np.NaN) /\
  ((2 <= reported coordinates r k i)%nat -> finite_row row).
Proof. apply feature_row_nan_or_finite. Qed.

(** X3.  The smallest angle of every feature row lies in [0, 2 pi); with two
    or more neighbours the mean increment is non-negative and, times the
    number of increments, stays below a full turn, and the standard
    deviation of the increments is non-negative. *)
Theorem angle_features_bounded coordinates r k feats i row :
  get_nn_features (mk coordinates) coordinates r k = Ok feats ->
  nth_error feats i = Some row ->
  (exists a, entry row 4 a /\ 0 <= a < two_pi) /\
  ((2 <= reported coordinates r k i)%nat ->
   exists m s,
     entry row 2 m /\ entry row 3 s /\
     0 <= m /\ m * INR (reported coordinates r k i - 1) < two_pi /\ 0 <= s).
Proof.
  intros H Hrow.
  destruct (feature_row_spec _ _ _ _ _ _ H Hrow)
    as (nbrs & incs & amin & lmin & lmax & Hspec).
  cbn zeta in Hspec.
  destruct Hspec as (Hi & Hn & Hne & Hlen & Hinc & Hmin & _ & _ & ->).
  set (angles := map (fun j => let v := sub_pt (nth j coordinates (0, 0))
                                             (nth i coordinates (0, 0)) in
                             Np.mod_ (Np.arctan2 (snd v) (fst v)) two_pi) nbrs) in *.
  assert (Hrange : Forall (fun a => 0 <= a < two_pi) angles).
  { apply Forall_forall. intros a Ha. apply in_map_iff in Ha.
    destruct Ha as (j & <- & _). apply angle_in_range. }
  assert (Hane : angles <> []).
  { unfold angles. destruct nbrs; [congruence | discriminate]. }
  split.
  - exists amin. split; [reflexivity|].
    destruct angles as [|a0 at0]; [congruence|].
    cbn [Np.min] in Hmin. injection Hmin as <-.
    rewrite Forall_forall in Hrange. apply Hrange, min_from_In.
  - intros H2.
    destruct (increments_short_of_full_turn angles Hane Hrange)
      as (incs' & Hinc' & Hl' & Hsum).
    rewrite Hinc in Hinc'. injection Hinc' as <-.
    pose proof (increments_sum_nonneg angles) as Hnn.
    rewrite <- (angle_increments_eq _ _ Hinc) in Hnn.
    unfold angles in Hl'. rewrite length_map, Hlen in Hl'.
    destruct incs as [|c cs]; [simpl in Hl'; lia|].
    cbn [Np.mean Np.std].
    exists (Np.sum (c :: cs) / INR (length (c :: cs))), (sqrt (Np.var (c :: cs))).
    rewrite <- Hl'.
    assert (Hpos : 0 < INR (length (c :: cs))) by (apply lt_0_INR; simpl; lia).
    split; [reflexivity|]. split; [reflexivity|]. split; [|split].
    + apply Rmult_le_reg_r with (INR (length (c :: cs))); [exact Hpos|].
      unfold Rdiv. rewrite Rmult_assoc, Rinv_l by lra. lra.
    + unfold Rdiv. rewrite Rmult_assoc, Rinv_l by lra. lra.
    + apply sqrt_pos.
Qed.

(** ** Distinct points *)

Lemma norm_zero v : Np.norm v = 0 -> v = (0, 0).
Proof.
  unfold Np.norm. intros H. apply sqrt_eq_0 in H; [|nra].
  destruct v as [a b]. simpl in H. f_equal; nra.
Qed.

Lemma dist_zero coordinates x j :
  dist_to (mk coordinates) x j = 0 -> nth j coordinates (0, 0) = x.
Proof.
  unfold dist_to. intros H. apply norm_zero in H. simpl in H.
  destruct (nth j coordinates (0, 0)) as [a b], x as [c d].
  unfold sub_pt in H. simpl in H. injection H as H1 H2. f_equal; lra.
Qed.

Lemma sorted_candidates_NoDup t ub x :
  NoDup (sort_by (dist_to t x) (candidates t ub x)).
Proof.
  eapply Permutation_NoDup; [symmetry; apply KDTreeFacts.sort_by_perm|].
  apply NoDup_filter, seq_NoDup.
Qed.

(** Among distinct points, the first column of the query is the point
    itself, so the neighbours kept are other points. *)
Lemma kept_neighbours_others coordinates r k i :
  NoDup coordinates -> (i < length coordinates)%nat ->
  Forall (fun j => j <> i)
         (tl (firstn k (sort_by (dist_to (mk coordinates) (nth i coordinates (0, 0)))
                                (candidates (mk coordinates) (Some r)
                                            (nth i coordinates (0, 0)))))).
Proof.
  intros Hnd Hi. set (x := nth i coordinates (0, 0)).
  pose proof (sorted_candidates_NoDup (mk coordinates) (Some r) x) as Hs.
  pose proof (kept_neighbours_within coordinates r k x) as Hw.
  destruct (sort_by (dist_to (mk coordinates) x) (candidates (mk coordinates) (Some r) x))
    as [|h rest] eqn:Es; [destruct k; constructor|].
  destruct k as [|k]; [constructor|]. cbn [firstn tl] in *.
  apply Forall_forall. intros j Hj Hji. subst j.
  (* i is among the neighbours kept, so the radius is positive *)
  rewrite Forall_forall in Hw. destruct (Hw i Hj) as [_ [_ Hr]].
  unfold x in Hr. rewrite KDTreeFacts.dist_self in Hr.
  (* the head has the smallest key, which is 0 *)
  destruct (KDTreeFacts.sort_by_hd_min (dist_to (mk coordinates) x)
              (candidates (mk coordinates) (Some r) x) h) as [Hh Hmin];
    [now rewrite Es|].
  assert (Hic : In i (candidates (mk coordinates) (Some r) x)).
  { unfold candidates. apply filter_In. split.
    - apply in_seq. change (n (mk coordinates)) with (length coordinates). lia.
    - unfold x. rewrite KDTreeFacts.dist_self. unfold within.
      destruct (Rlt_dec 0 r); [reflexivity | contradiction]. }
  specialize (Hmin i Hic). unfold x in Hmin at 2. rewrite KDTreeFacts.dist_self in Hmin.
  pose proof (KDTreeFacts.norm_nonneg (sub_pt (nth h (data (mk coordinates)) (0, 0)) x)) as H0.
  assert (Hh0 : dist_to (mk coordinates) x h = 0) by (unfold dist_to in *; lra).
  apply dist_zero in Hh0.
  assert (Hhi : h = i).
  { apply (proj1 (NoDup_nth coordinates (0, 0)) Hnd); [|exact Hi|exact Hh0].
    apply KDTreeFacts.candidates_lt in Hh. exact Hh. }
  subst h. inversion Hs as [|? ? Hnin _]; subst.
  apply Hnin. now apply In_firstn in Hj.
Qed.

(** X4.  When the points are pairwise distinct, the smallest neighbour
    distance of every feature row is positive: a point is not its own
    neighbour. *)
Theorem distinct_points_positive_lengths coordinates r k feats i row :
  NoDup coordinates ->
  get_nn_features (mk coordinates) coordinates r k = Ok feats ->
  nth_error feats i = Some row ->
  exists lo, entry row 6 lo /\ 0 < lo.
Proof.
  intros Hnd H Hrow.
  destruct (feature_row_spec _ _ _ _ _ _ H Hrow)
    as (nbrs & incs & amin & lmin & lmax & Hspec).
  cbn zeta in Hspec.
  destruct Hspec as (Hi & Hn & Hne & _ & _ & _ & Hmin & _ & ->).
  exists lmin. split; [reflexivity|].
  pose proof (kept_neighbours_others coordinates r k i Hnd Hi) as Ho.
  pose proof (kept_neighbours_within coordinates r k (nth i coordinates (0, 0))) as Hw.
  rewrite <- Hn in Ho, Hw.
  assert (Hpos : Forall (fun d => 0 < d)
                        (map (dist_to (mk coordinates) (nth i coordinates (0, 0))) nbrs)).
  { apply Forall_forall. intros d Hd. apply in_map_iff in Hd.
    destruct Hd as (j & <- & Hj).
    rewrite Forall_forall in Ho, Hw. destruct (Hw j Hj) as [Hjn [H0 _]].
    destruct H0 as [H0|H0]; [exact H0|]. exfalso. apply (Ho j Hj).
    symmetry in H0. apply dist_zero in H0.
    apply (proj1 (NoDup_nth coordinates (0, 0)) Hnd); assumption. }
  destruct (map (dist_to (mk coordinates) (nth i coordinates (0, 0))) nbrs)
    as [|d0 ds]; [discriminate|].
  cbn [Np.min] in Hmin. injection Hmin as <-.
  rewrite Forall_forall in Hpos. apply Hpos, min_from_In.
Qed.

(** ** The interior mask in terms of the points *)

(** X5.  A point passes the interior mask exactly when the neighbour cap is
    at least 6 and at least 5 other points lie strictly within the radius;
    with a cap of 5 or less no point is ever interior. *)
Theorem interior_iff_five_neighbours coordinates r k feats i :
  get_nn_features (mk coordinates) coordinates r k = Ok feats ->
  (i < length coordinates)%nat ->
  nth i (off_edge feats) false = true <->
  (6 <= k)%nat /\ (5 <= count_others coordinates r i)%nat.
Proof.
  intros H Hi. destruct (get_nn_features_rows _ _ _ _ H) as [Hlen Hrows].
  destruct (nth_error feats i) as [row|] eqn:Er;
    [|apply nth_error_None in Er; lia].
  destruct (Hrows i row Er) as (_ & Hv & _).
  rewrite off_edge_map.
  rewrite (nth_error_nth (map _ feats) i false
             (x := Np.ge (nth 5 row Np.NaN) 5))
    by (rewrite nth_error_map, Er; reflexivity).
  rewrite Hv, ge_5_count, Nat.leb_le. lia.
Qed.

(** ** Six points on a line *)

Lemma line6_counts i : (i < 6)%nat -> count_others line6 11 i = 5%nat.
Proof.
  intros Hi. unfold count_others, dist_to.
  destruct i as [|[|[|[|[|[|i]]]]]]; [| | | | | |lia];
    cbn [line6 length seq filter Nat.eqb negb andb data nth];
    rewrite !within_true by (simpl; lra); reflexivity.
Qed.

Lemma line6_NoDup : NoDup line6.
Proof.
  unfold line6.
  repeat constructor; simpl; intros H;
    repeat (destruct H as [H|H]; [injection H; intros; lra|]); exact H.
Qed.

Lemma line6_features :
  exists feats row,
    get_nn_features (mk line6) line6 11 10 = Ok feats /\
    nth_error feats 0 = Some row.
Proof.
  destruct (get_nn_features_total line6 11 10) as [feats Hf].
  - lia.
  - intros i Hi. rewrite line6_counts by exact Hi. lia.
  - destruct (get_nn_features_rows _ _ _ _ Hf) as [Hlen _].
    destruct (nth_error feats 0) as [row|] eqn:Er.
    + eauto.
    + apply nth_error_None in Er. rewrite Hlen in Er. simpl in Er. lia.
Qed.


Lemma single_neighbour_gives_nan_witness :
  exists feats row,
    get_nn_features (mk line6) line6 11 10 = Ok feats /\
    nth_error feats 0 = Some row /\
    (reported line6 11 10 0 = 1%nat ->
     nth_error row 2 = Some Np.NaN /\ nth_error row 3 = Some Np.NaN) /\
    ((2 <= reported line6 11 10 0)%nat -> finite_row row).
Proof.
  destruct line6_features as (feats & row & Hf & Hr).
  exists feats, row. split; [exact Hf|]. split; [exact Hr|].
  exact (single_neighbour_gives_nan line6 11 10 feats 0 row Hf Hr).
Defined.

Lemma angle_features_bounded_witness :
  exists feats row,
    get_nn_features (mk line6) line6 11 10 = Ok feats /\
    nth_error feats 0 = Some row /\
    (exists a, entry row 4 a /\ 0 <= a < two_pi) /\
    ((2 <= reported line6 11 10 0)%nat ->
     exists m s,
       entry row 2 m /\ entry row 3 s /\
       0 <= m /\ m * INR (reported line6 11 10 0 - 1) < two_pi /\ 0 <= s).
Proof.
  destruct line6_features as (feats & row & Hf & Hr).
  exists feats, row. split; [exact Hf|]. split; [exact Hr|].
  exact (angle_features_bounded line6 11 10 feats 0 row Hf Hr).
Defined.

Lemma distinct_points_positive_lengths_witness :
  exists feats row,
    get_nn_features (mk line6) line6 11 10 = Ok feats /\
    nth_error feats 0 = Some row /\
    exists lo, entry row 6 lo /\ 0 < lo.
Proof.
  destruct line6_features as (feats & row & Hf & Hr).
  exists feats, row. split; [exact Hf|]. split; [exact Hr|].
  exact (distinct_points_positive_lengths line6 11 10 feats 0 row line6_NoDup Hf Hr).
Defined.

Lemma interior_iff_five_neighbours_witness :
  exists feats,
    get_nn_features (mk line6) line6 11 10 = Ok feats /\
    (nth 0 (off_edge feats) false = true <->
     (6 <= 10)%nat /\ (5 <= count_others line6 11 0)%nat).
Proof.
  destruct line6_features as (feats & row & Hf & Hr).
  exists feats. split; [exact Hf|].
  apply (interior_iff_five_neighbours line6 11 10 feats 0 Hf). simpl. lia.
Defined.

(** ** The nearest-neighbour distance *)

Lemma mapM_ok_map {A B : Type} (f : A -> result B) (g : A -> B) (l : list A) :
  (forall a, In a l -> f a = Ok (g a)) -> mapM f l = Ok (map g l).
Proof.
  induction l as [|a t IH]; intros H; simpl; [reflexivity|].
  rewrite (H a (or_introl eq_refl)). simpl.
  rewrite IH by (intros b Hb; apply H; now right). reflexivity.
Qed.

Lemma mapM_map {A B C : Type} (f : B -> result C) (g : A -> B) (l : list A) :
  mapM f (map g l) = mapM (fun a => f (g a)) l.
Proof.
  induction l as [|a t IH]; simpl; [reflexivity|]. now rewrite IH.
Qed.

(** With at least two points the second entry of the sorted index list is a
    nearest other point. *)
Lemma second_is_nearest_other columns i :
  (2 <= length columns)%nat -> (i < length columns)%nat ->
  exists s0 s1 rest,
    sort_by (dist_to (mk columns) (nth i columns (0, 0))) (seq 0 (length columns))
    = s0 :: s1 :: rest /\
    exists j, j <> i /\ (j < length columns)%nat /\
      dist_to (mk columns) (nth i columns (0, 0)) j =
      dist_to (mk columns) (nth i columns (0, 0)) s1 /\
      forall j', (j' < length columns)%nat -> j' <> i ->
        dist_to (mk columns) (nth i columns (0, 0)) s1 <=
        dist_to (mk columns) (nth i columns (0, 0)) j'.
Proof.
  intros Hn Hi. set (key := dist_to (mk columns) (nth i columns (0, 0))).
  pose proof (KDTreeFacts.sort_by_perm key (seq 0 (length columns))) as Hp.
  pose proof (KDTreeFacts.sort_by_sorted key (seq 0 (length columns))) as Hs.
  assert (Hnd : NoDup (sort_by key (seq 0 (length columns)))).
  { eapply Permutation_NoDup; [symmetry; exact Hp | apply seq_NoDup]. }
  assert (Hmem : forall j, In j (sort_by key (seq 0 (length columns))) <->
                           (j < length columns)%nat).
  { intros j. rewrite KDTreeFacts.sort_by_In, in_seq. lia. }
  assert (Hki : key i = 0) by apply KDTreeFacts.dist_self.
  assert (Hk0 : forall j, 0 <= key j) by (intros j; apply KDTreeFacts.norm_nonneg).
  destruct (sort_by key (seq 0 (length columns))) as [|s0 [|s1 rest]] eqn:Es.
  - apply Permutation_length in Hp. rewrite length_seq in Hp. simpl in Hp. lia.
  - apply Permutation_length in Hp. rewrite length_seq in Hp. simpl in Hp. lia.
  - exists s0, s1, rest. split; [reflexivity|].
    inversion Hs as [|? ? Hs1 Hall0]; subst.
    inversion Hs1 as [|? ? _ Hall1]; subst.
    inversion Hnd as [|? ? Hnin0 Hnd1]; subst.
    rewrite Forall_forall in Hall0, Hall1. unfold le_key in *.
    destruct (Nat.eq_dec s0 i) as [->|Hne].
    + exists s1. split; [intros ->; apply Hnin0; now left|].
      split; [apply Hmem; right; now left|]. split; [reflexivity|].
      intros j' Hj' Hji. apply Hmem in Hj'.
      destruct Hj' as [<-|[<-|Hj']]; [congruence | lra | now apply Hall1].
    + assert (Hi1 : In i (s1 :: rest)).
      { apply Hmem in Hi. destruct Hi as [Hi|Hi]; [congruence | exact Hi]. }
      assert (H0 : key s0 = 0).
      { specialize (Hall0 i Hi1). specialize (Hk0 s0). lra. }
      assert (H1 : key s1 = 0).
      { destruct Hi1 as [<-|Hi1]; [exact Hki|].
        specialize (Hall1 i Hi1). specialize (Hk0 s1). lra. }
      exists s0. split; [exact Hne|].
      split; [apply Hmem; now left|]. split; [lra|].
      intros j' _ _. specialize (Hk0 j'). lra.
Qed.

(** X6.  With two or more points, the cell's value for point [i] is the
    distance from [i] to a nearest other point. *)
Theorem nn_distance_nearest_other columns :
  (2 <= length columns)%nat ->
  exists ds,
    KDDist.nn_distance columns 1 = Ok ds /\
    length ds = length columns /\
    forall i, (i < length columns)%nat ->
      exists d j,
        nth_error ds i = Some (KDDist.Finite d) /\
        j <> i /\ (j < length columns)%nat /\
        d = dist_to (mk columns) (nth i columns (0, 0)) j /\
        forall j', (j' < length columns)%nat -> j' <> i ->
          d <= dist_to (mk columns) (nth i columns (0, 0)) j'.
Proof.
  intros Hn.
  set (second := fun x : point =>
         match sort_by (dist_to (mk columns) x) (seq 0 (length columns)) with
         | _ :: s1 :: _ => KDDist.Finite (dist_to (mk columns) x s1)
         | _ => KDDist.Infinite
         end).
  exists (map second columns).
  split; [|split].
  - unfold KDDist.nn_distance, KDDist.query. cbn [Nat.add bind KDDist.take_column].
    rewrite mapM_map. apply mapM_ok_map. intros x Hx.
    apply In_nth with (d := (0, 0)) in Hx. destruct Hx as (i & Hi & <-).
    destruct (second_is_nearest_other columns i Hn Hi) as (s0 & s1 & rest & Es & _).
    unfold KDDist.query_row, second. rewrite LabelFacts.candidates_all.
    change (n (mk columns)) with (length columns). rewrite Es. reflexivity.
  - apply length_map.
  - intros i Hi.
    destruct (second_is_nearest_other columns i Hn Hi)
      as (s0 & s1 & rest & Es & j & Hji & Hj & Hd & Hmin).
    exists (dist_to (mk columns) (nth i columns (0, 0)) s1), j.
    split.
    + rewrite nth_error_map.
      rewrite (nth_error_nth' columns (0, 0) Hi). simpl. unfold second.
      now rewrite Es.
    + repeat split; auto.
Qed.

Lemma nn_distance_nearest_other_witness :
  exists ds,
    KDDist.nn_distance line3 1 = Ok ds /\
    length ds = length line3 /\
    forall i, (i < length line3)%nat ->
      exists d j,
        nth_error ds i = Some (KDDist.Finite d) /\
        j <> i /\ (j < length line3)%nat /\
        d = dist_to (mk line3) (nth i line3 (0, 0)) j /\
        forall j', (j' < length line3)%nat -> j' <> i ->
          d <= dist_to (mk line3) (nth i line3 (0, 0)) j'.
Proof. apply (nn_distance_nearest_other line3). simpl. lia. Defined.

(** X7.  With a single point the nearest-neighbour distance is infinite, and
    asking for the 0-th neighbour (NN = 0) raises IndexError, because a
    query for one neighbour returns a 1-D array. *)
Theorem nn_distance_edge_cases :
  (forall p, KDDist.nn_distance [p] 1 = Ok [KDDist.Infinite]) /\
  (forall columns, KDDist.nn_distance columns 0 = Raise IndexError) /\
  KDDist.nn_distance [] 1 = Ok [].
Proof.
  split; [|split]; reflexivity.
Qed.

(** ** Interior and edge points *)

Lemma mask_split {A : Type} (mask : list bool) :
  forall arr : list A,
    length mask = length arr ->
    Permutation (map snd (filter fst (combine mask arr)) ++
                 map snd (filter fst (combine (map negb mask) arr))) arr.
Proof.
  induction mask as [|b mask IH]; intros arr Hlen.
  - destruct arr; [constructor | discriminate].
  - destruct arr as [|a arr]; [discriminate|]. injection Hlen as Hlen.
    specialize (IH arr Hlen). destruct b; cbn [map combine filter fst snd negb app].
    + now constructor.
    + rewrite <- Permutation_middle. now constructor.
Qed.

(** X8.  The interior points and the points left out partition the
    positions: together they are a rearrangement of all positions. *)
Theorem interior_edge_partition
  (features : list (list Np.float64)) (atom_positions : list point) :
  length atom_positions = length features ->
  exists filtered_coordinates edge,
    Np.mask_select atom_positions (off_edge features) = Ok filtered_coordinates /\
    not_classified atom_positions features = Ok edge /\
    Permutation (filtered_coordinates ++ edge) atom_positions /\
    (length filtered_coordinates + length edge = length atom_positions)%nat.
Proof.
  intros Hlen.
  assert (Hm : length (off_edge features) = length atom_positions)
    by (unfold off_edge, column; rewrite !length_map; congruence).
  unfold not_classified, Np.mask_select.
  rewrite length_map, Hm, Nat.eqb_refl.
  eexists _, _. split; [reflexivity|]. split; [reflexivity|].
  pose proof (mask_split (off_edge features) atom_positions Hm) as Hp.
  split; [exact Hp|].
  apply Permutation_length in Hp. now rewrite length_app in Hp.
Qed.

Lemma interior_edge_partition_witness :
  exists filtered_coordinates edge,
    Np.mask_select [(0, 0); (10, 0)] (off_edge two_rows) = Ok filtered_coordinates /\
    not_classified [(0, 0); (10, 0)] two_rows = Ok edge /\
    Permutation (filtered_coordinates ++ edge) [(0, 0); (10, 0)] /\
    (length filtered_coordinates + length edge = length [(0, 0); (10, 0)])%nat.
Proof. apply (interior_edge_partition two_rows). reflexivity. Defined.

(** ** The hash check cell, for every input *)

(** X9.  The cell prints exactly one line and ends with status 0 whatever
    the hash is; the line is "Hash is ok" exactly when the hash is the
    expected digest. *)
Theorem hash_check_outcome hash :
  (HashCell.stdout (HashCell.hash_check hash) = ["Hash is ok"%string] <->
   hash = HashCell.expected_digest) /\
  length (HashCell.stdout (HashCell.hash_check hash)) = 1%nat /\
  HashCell.exit_status (HashCell.hash_check hash) = O.
Proof.
  unfold HashCell.hash_check, HashCell.test_status.
  destruct (String.eqb_spec hash "") as [->|Hne].
  - simpl. repeat split; try discriminate.
  - destruct (String.eqb_spec hash HashCell.expected_digest) as [->|Hneq]; simpl.
    + repeat split; auto.
    + repeat split; try discriminate; try contradiction.
Qed.

(** ** Rescaling rows of numbers *)

Module ScaleFacts.

Import MinMaxScaler.

(** The parameters fitted on a column of numbers are numbers. *)
Lemma fit_column_finite x0 t :
  exists s o, fit_column (map Np.Fin (x0 :: t)) = (Np.Fin s, Np.Fin o).
Proof.
  unfold fit_column, nanmin, nanmax. rewrite MinMaxFacts.finite_values_Fin.
  cbn [Np.min Np.max lift2 handle_zeros_in_scale].
  destruct (Rlt_dec (Np.max_from x0 t - Np.min_from x0 t) (10 * eps));
    cbn [lift2]; eauto.
Qed.

Lemma finite_column X m j :
  Forall (fun row => length row = m /\ finite_row row) X -> (j < m)%nat ->
  column j X =
  map Np.Fin (map (fun row => match nth j row Np.NaN with
                              | Np.Fin x => x
                              | Np.NaN => 0
                              end) X).
Proof.
  intros HX Hj. unfold column. rewrite map_map. apply map_ext_in.
  intros row Hrow. rewrite Forall_forall in HX. destruct (HX row Hrow) as [Hl Hf].
  unfold finite_row in Hf. rewrite Forall_forall in Hf.
  destruct (Hf (nth j row Np.NaN)) as [x ->]; [apply nth_In; lia | reflexivity].
Qed.

(** Rescaling an array of numbers with at least one row and one column
    succeeds and gives an array of numbers of the same shape. *)
Lemma fit_transform_finite X m :
  X <> [] -> (1 <= m)%nat ->
  Forall (fun row => length row = m /\ finite_row row) X ->
  exists S,
    fit_transform X = Ok S /\
    length S = length X /\
    Forall (fun row => length row = m /\ finite_row row) S.
Proof.
  intros Hne Hm HX. destruct X as [|r0 Xt] eqn:EX; [congruence|]. rewrite <- EX in *.
  assert (Hr0 : length r0 = m).
  { rewrite EX in HX. inversion HX as [|? ? [H _] _]. exact H. }
  exists (transform (fit X) X).
  split; [rewrite EX; destruct r0; [simpl in Hr0; lia | reflexivity]|].
  split; [unfold transform; apply length_map|].
  assert (Hnf : n_features X = m) by (rewrite EX; exact Hr0).
  assert (Hfit : length (fit X) = m)
    by (unfold fit; now rewrite length_map, length_seq).
  unfold transform. apply Forall_forall. intros srow Hs.
  apply in_map_iff in Hs. destruct Hs as (row & <- & Hrow).
  pose proof HX as HX'. rewrite Forall_forall in HX'.
  destruct (HX' row Hrow) as [Hl Hf].
  split; [rewrite length_map, length_combine; lia|].
  apply Forall_forall. intros e He.
  apply (In_nth _ _ Np.NaN) in He. destruct He as (j & Hj & <-).
  rewrite length_map, length_combine in Hj.
  change Np.NaN with ((fun '(p, x) => transform_entry p x)
                        ((Np.NaN, Np.NaN), Np.NaN)) at 1.
  rewrite map_nth, combine_nth by congruence.
  rewrite MinMaxFacts.nth_fit by lia.
  rewrite (finite_column X m j HX) by lia.
  unfold finite_row in Hf. rewrite Forall_forall in Hf.
  destruct (Hf (nth j row Np.NaN)) as [x Ex]; [apply nth_In; lia|].
  rewrite Ex.
  destruct (map (fun row => match nth j row Np.NaN with
                            | Np.Fin y => y
                            | Np.NaN => 0
                            end) X) as [|x0 t] eqn:EM;
    [rewrite EX in EM; discriminate|].
  destruct (fit_column_finite x0 t) as (sc & o & Hfc).
  rewrite Hfc. cbn [transform_entry lift2 fst snd]. eauto.
Qed.

Lemma forallb_numbers X m :
  Forall (fun row => length row = m /\ finite_row row) X ->
  forallb (forallb PCA.is_number) X = true.
Proof.
  intros HX. apply forallb_forall. intros row Hrow.
  rewrite Forall_forall in HX. destruct (HX row Hrow) as [_ Hf].
  apply forallb_forall. intros e He.
  unfold finite_row in Hf. rewrite Forall_forall in Hf.
  destruct (Hf e He) as [x ->]. reflexivity.
Qed.

(** PCA accepts an array of numbers with enough rows and columns. *)
Lemma pca_ok c X m :
  Forall (fun row => length row = m /\ finite_row row) X ->
  (c <= length X)%nat -> (c <= m)%nat -> (1 <= length X)%nat ->
  PCA.fit_transform c X = Ok tt.
Proof.
  intros HX Hc Hm H1. unfold PCA.fit_transform.
  rewrite (forallb_numbers X m HX).
  assert (Hnf : n_features X = m).
  { destruct X as [|r0 Xt]; [simpl in H1; lia|]. inversion HX as [|? ? [H _] _]. exact H. }
  rewrite Hnf.
  replace (c <=? Nat.min (length X) m)%nat with true
    by (symmetry; apply Nat.leb_le; lia).
  reflexivity.
Qed.


Lemma datafit_finite S :
  Forall (fun row => length row = 8%nat /\ finite_row row) S ->
  Forall (fun row => length row = 3%nat /\ finite_row row) (datafit S).
Proof.
  intros HS. unfold datafit. apply Forall_forall. intros drow Hd.
  apply in_map_iff in Hd. destruct Hd as (row & <- & Hrow).
  rewrite Forall_forall in HS. destruct (HS row Hrow) as [Hl Hf].
  split; [reflexivity|].
  unfold finite_row in *. rewrite Forall_forall in Hf.
  repeat constructor; apply Hf; apply nth_In; lia.
Qed.

End ScaleFacts.

(** ** The pipeline as a whole *)

Lemma filtered_features_eq feats :
  Np.mask_select feats (off_edge feats) =
  Ok (filter (fun row => Np.ge (nth 5 row Np.NaN) 5) feats).
Proof. rewrite off_edge_map. apply mask_select_map. Qed.

(** A row that passes the interior mask belongs to a point with at least 5
    neighbours; it has 8 entries, all of them numbers. *)
Lemma interior_row coordinates r k feats row :
  get_nn_features (mk coordinates) coordinates r k = Ok feats ->
  In row (filter (fun row => Np.ge (nth 5 row Np.NaN) 5) feats) ->
  length row = 8%nat /\ finite_row row /\
  exists i, (i < length coordinates)%nat /\ (5 <= count_others coordinates r i)%nat.
Proof.
  intros H Hin. apply filter_In in Hin. destruct Hin as [Hin Hkeep].
  apply In_nth_error in Hin. destruct Hin as [i Hi].
  destruct (get_nn_features_rows _ _ _ _ H) as [Hlen Hrows].
  destruct (Hrows i row Hi) as (Hl & Hv & _).
  rewrite Hv, ge_5_count in Hkeep. apply Nat.leb_le in Hkeep.
  split; [exact Hl|]. split.
  - apply (feature_row_nan_or_finite _ _ _ _ _ _ H Hi). unfold reported. lia.
  - exists i. split; [|lia].
    rewrite <- Hlen. apply nth_error_Some. congruence.
Qed.

Lemma scaled_interior_features coordinates r k feats :
  get_nn_features (mk coordinates) coordinates r k = Ok feats ->
  exists ff,
    Np.mask_select feats (off_edge feats) = Ok ff /\
    Forall (fun row => length row = 8%nat /\ finite_row row) ff /\
    (ff = [] -> MinMaxScaler.fit_transform ff = Raise ValueError) /\
    (ff <> [] ->
     exists S,
       MinMaxScaler.fit_transform ff = Ok S /\
       length S = length ff /\
       Forall (fun row => length row = 8%nat /\ finite_row row) S).
Proof.
  intros H. eexists. split; [apply filtered_features_eq|].
  assert (Hrows : Forall (fun row => length row = 8%nat /\ finite_row row)
                         (filter (fun row => Np.ge (nth 5 row Np.NaN) 5) feats)).
  { apply Forall_forall. intros row Hrow.
    destruct (interior_row _ _ _ _ _ H Hrow) as (Hl & Hf & _). now split. }
  split; [exact Hrows|]. split.
  - intros ->. reflexivity.
  - intros Hne. apply ScaleFacts.fit_transform_finite; [exact Hne | lia | exact Hrows].
Qed.

(** X11.  The rows that pass the interior mask have 8 entries and contain
    no NaN, so their rescaling succeeds whenever there is an interior point
    and gives as many rows of 8 numbers; without an interior point the
    rescaling raises ValueError. *)
Theorem interior_features_rescale coordinates r k feats :
  get_nn_features (mk coordinates) coordinates r k = Ok feats ->
  exists ff,
    Np.mask_select feats (off_edge feats) = Ok ff /\
    Forall (fun row => length row = 8%nat /\ finite_row row) ff /\
    (ff = [] -> MinMaxScaler.fit_transform ff = Raise ValueError) /\
    (ff <> [] ->
     exists S,
       MinMaxScaler.fit_transform ff = Ok S /\
       length S = length ff /\
       Forall (fun row => length row = 8%nat /\ finite_row row) S).
Proof. apply scaled_interior_features. Qed.

Lemma interior_features_rescale_witness :
  exists feats ff,
    get_nn_features (mk line6) line6 11 10 = Ok feats /\
    Np.mask_select feats (off_edge feats) = Ok ff /\
    Forall (fun row => length row = 8%nat /\ finite_row row) ff /\
    (ff = [] -> MinMaxScaler.fit_transform ff = Raise ValueError) /\
    (ff <> [] ->
     exists S,
       MinMaxScaler.fit_transform ff = Ok S /\
       length S = length ff /\
       Forall (fun row => length row = 8%nat /\ finite_row row) S).
Proof.
  destruct line6_features as (feats & row & Hf & _).
  destruct (interior_features_rescale line6 11 10 feats Hf) as (ff & Hff).
  exists feats, ff. split; [exact Hf | exact Hff].
Defined.

Lemma filter_length_by_index {A : Type} (p : A -> bool) (q : nat -> bool) (l : list A) :
  forall s,
    (forall i a, nth_error l i = Some a -> p a = q (s + i)%nat) ->
    length (filter p l) = length (filter q (seq s (length l))).
Proof.
  induction l as [|a t IH]; intros s H; [reflexivity|].
  cbn [length seq filter].
  assert (Ha : q s = p a) by (rewrite (H 0%nat a eq_refl); f_equal; lia).
  assert (IHt : length (filter p t) = length (filter q (seq (S s) (length t)))).
  { apply IH. intros i b Hb. rewrite (H (S i) b Hb). f_equal. lia. }
  rewrite Ha. destruct (p a); simpl; now rewrite IHt.
Qed.

(** The filtered features have one row per interior point. *)
Lemma interior_rows_count coordinates r feats :
  get_nn_features (mk coordinates) coordinates r 10 = Ok feats ->
  length (filter (fun row => Np.ge (nth 5 row Np.NaN) 5) feats) =
  interior_count coordinates r.
Proof.
  intros H. destruct (get_nn_features_rows _ _ _ _ H) as [Hlen Hrows].
  unfold interior_count. rewrite <- Hlen.
  apply filter_length_by_index. intros i row Hi.
  destruct (Hrows i row Hi) as (_ & Hv & _).
  rewrite Hv, ge_5_count. cbn [Nat.add].
  destruct (Nat.leb_spec 5 (Nat.min (10 - 1) (count_others coordinates r i))),
    (Nat.leb_spec 5 (count_others coordinates r i)); try reflexivity; lia.
Qed.

Section WholePipeline.

Variable cluster_labels : list (list Np.float64) -> result (list Z).

(** The pipeline returns an image when every point has a neighbour within
    11 pixels, at least 8 points are interior, and the clustering returns on
    the data of this run with one label per sample. *)
Lemma segment_ok atom_positions h w :
  (forall X labels, cluster_labels X = Ok labels -> length labels = length X) ->
  (forall feats ff S,
      get_nn_features (mk atom_positions) atom_positions 11 10 = Ok feats ->
      Np.mask_select feats (off_edge feats) = Ok ff ->
      MinMaxScaler.fit_transform ff = Ok S ->
      exists labels, cluster_labels (datafit S) = Ok labels) ->
  (forall i, (i < length atom_positions)%nat ->
             (1 <= count_others atom_positions 11 i)%nat) ->
  (8 <= interior_count atom_positions 11)%nat ->
  exists img, segment cluster_labels atom_positions (h, w) = Ok img.
Proof.
  intros Hcontract Hruns Hall H8. unfold segment.
  destruct (get_nn_features_total atom_positions 11 10 ltac:(lia) Hall) as [feats Hf].
  rewrite Hf. cbn [bind].
  destruct (get_nn_features_rows _ _ _ _ Hf) as [Hlen Hrows].
  assert (Hm : length (off_edge feats) = length feats)
    by (unfold off_edge, column; now rewrite !length_map).
  destruct (MaskFacts.mask_select_rows (off_edge feats) feats Hm)
    as (ff & Hff & Hffl & _).
  destruct (MaskFacts.mask_select_rows (off_edge feats) atom_positions
              ltac:(congruence)) as (fc & Hfc & Hfcl & _).
  rewrite Hff, Hfc. cbn [bind].
  assert (Hcount : length ff = interior_count atom_positions 11).
  { pose proof Hff as Hff'. rewrite filtered_features_eq in Hff'.
    injection Hff' as <-. now apply interior_rows_count. }
  assert (Hne : ff <> []) by (intros ->; simpl in Hcount; lia).
  destruct (scaled_interior_features _ _ _ _ Hf) as (ff' & Hff' & _ & _ & Hsc).
  rewrite Hff in Hff'. injection Hff' as <-.
  destruct (Hsc Hne) as (S & HS & HSl & HSrows). rewrite HS. cbn [bind].
  rewrite (ScaleFacts.pca_ok 8 S 8 HSrows) by lia. cbn [bind].
  destruct (Hruns feats ff S Hf Hff HS) as (labels & Hlab).
  rewrite Hlab. cbn [bind].
  assert (Hdl : length (datafit S) = length S) by (unfold datafit; apply length_map).
  rewrite (ScaleFacts.pca_ok 2 (datafit S) 3 (ScaleFacts.datafit_finite S HSrows)) by lia.
  cbn [bind].
  assert (Hfcne : fc <> []) by (intros ->; simpl in *; lia).
  destruct (LabelFacts.labeled_image_spec fc labels h w Hfcne) as (img & Himg & _).
  - rewrite (Hcontract _ _ Hlab). lia.
  - eauto.
Qed.

(** What a returned image says about the positions. *)
Lemma segment_inv atom_positions h w img :
  segment cluster_labels atom_positions (h, w) = Ok img ->
  (forall i, (i < length atom_positions)%nat ->
             (1 <= count_others atom_positions 11 i)%nat) /\
  (exists i, (i < length atom_positions)%nat /\
             (5 <= count_others atom_positions 11 i)%nat) /\
  length img = h /\ Forall (fun row => length row = w) img.
Proof.
  intros H. pose proof (segment_shape _ _ _ _ _ H) as [Hh Hw].
  unfold segment in H.
  destruct (get_nn_features _ _ _ _) as [feats|e] eqn:Hf; [|discriminate].
  cbn [bind] in H. rewrite filtered_features_eq in H. cbn [bind] in H.
  destruct (Np.mask_select atom_positions _) as [fc|e]; [|discriminate].
  cbn [bind] in H.
  destruct (get_nn_features_rows _ _ _ _ Hf) as [Hlen Hrows].
  split; [|split; [|split; assumption]].
  - intros i Hi. destruct (nth_error feats i) as [row|] eqn:Er;
      [|apply nth_error_None in Er; lia].
    now destruct (Hrows i row Er) as (_ & _ & H1).
  - destruct (filter _ feats) as [|row rest] eqn:Eff; [discriminate|].
    assert (Hin : In row (filter (fun row => Np.ge (nth 5 row Np.NaN) 5) feats))
      by (rewrite Eff; now left).
    now destruct (interior_row _ _ _ _ _ Hf Hin) as (_ & _ & Hex).
Qed.

(** X12.  If the pipeline returns a label image, then every point has
    another point within 11 pixels, at least one point has 5 or more, and
    the image has the shape of the sub-image. *)
Theorem segment_returns_only_if atom_positions h w img :
  segment cluster_labels atom_positions (h, w) = Ok img ->
  (forall i, (i < length atom_positions)%nat ->
             (1 <= count_others atom_positions 11 i)%nat) /\
  (exists i, (i < length atom_positions)%nat /\
             (5 <= count_others atom_positions 11 i)%nat) /\
  length img = h /\ Forall (fun row => length row = w) img.
Proof. apply segment_inv. Qed.

(** X13.  The pipeline returns a label image when every point has another
    point within 11 pixels, at least 8 points have 5 or more (PCA(8) needs 8
    samples), and the clustering, which gives one label per sample, does not
    raise on the rescaled interior features of this run. *)
Theorem segment_returns_if atom_positions h w :
  (forall X labels, cluster_labels X = Ok labels -> length labels = length X) ->
  (forall feats ff S,
      get_nn_features (mk atom_positions) atom_positions 11 10 = Ok feats ->
      Np.mask_select feats (off_edge feats) = Ok ff ->
      MinMaxScaler.fit_transform ff = Ok S ->
      exists labels, cluster_labels (datafit S) = Ok labels) ->
  (forall i, (i < length atom_positions)%nat ->
             (1 <= count_others atom_positions 11 i)%nat) ->
  (8 <= interior_count atom_positions 11)%nat ->
  exists img, segment cluster_labels atom_positions (h, w) = Ok img.
Proof. apply segment_ok. Qed.


End WholePipeline.

Lemma line8_counts i : (i < 8)%nat -> count_others line8 11 i = 7%nat.
Proof.
  intros Hi. unfold count_others, dist_to.
  destruct i as [|[|[|[|[|[|[|[|i]]]]]]]]; [| | | | | | | |lia];
    cbn [line8 length seq filter Nat.eqb negb andb data nth];
    rewrite !within_true by (simpl; lra); reflexivity.
Qed.

Lemma line8_interior : interior_count line8 11 = 8%nat.
Proof.
  unfold interior_count. change (length line8) with 8%nat. cbn [seq filter].
  rewrite !line8_counts by lia. reflexivity.
Qed.


Lemma one_cluster_contract X labels :
  one_cluster X = Ok labels -> length labels = length X.
Proof. intros H. injection H as <-. apply length_map. Qed.

Lemma line8_segment :
  exists img, segment one_cluster line8 (2%nat, 3%nat) = Ok img.
Proof.
  apply segment_ok.
  - exact one_cluster_contract.
  - intros. eexists. reflexivity.
  - intros i Hi. rewrite line8_counts by exact Hi. lia.
  - rewrite line8_interior. lia.
Qed.

(** Eight points on a line, with a clustering that puts all in one
    cluster. *)
Lemma segment_returns_only_if_witness :
  exists img,
    segment one_cluster line8 (2%nat, 3%nat) = Ok img /\
    (forall i, (i < length line8)%nat -> (1 <= count_others line8 11 i)%nat) /\
    (exists i, (i < length line8)%nat /\ (5 <= count_others line8 11 i)%nat) /\
    length img = 2%nat /\ Forall (fun row => length row = 3%nat) img.
Proof.
  destruct line8_segment as [img Himg].
  exists img. split; [exact Himg|].
  exact (segment_returns_only_if one_cluster line8 2 3 img Himg).
Defined.

Lemma segment_returns_if_witness :
  exists img, segment one_cluster line8 (2%nat, 3%nat) = Ok img.
Proof.
  apply (segment_returns_if one_cluster line8 2 3).
  - exact one_cluster_contract.
  - intros. eexists. reflexivity.
  - intros i Hi. rewrite line8_counts by exact Hi. lia.
  - rewrite line8_interior. lia.
Defined.


(** ** A pixel on an interior point *)

(** X14.  Among distinct interior points, a pixel that coincides with an
    interior point gets the label of that point. *)
Theorem pixel_on_point_gets_its_label fc labels h w i x y :
  NoDup fc -> length labels = length fc ->
  (y < h)%nat -> (x < w)%nat ->
  nth_error fc i = Some (INR x, INR y) ->
  exists img row,
    labeled_image fc labels (h, w) = Ok img /\
    nth_error img y = Some row /\
    nth_error row x = nth_error labels i.
Proof.
  intros Hnd Hlab Hy Hx Hi.
  assert (Hne : fc <> []) by (intros ->; destruct i; discriminate).
  assert (Hil : (i < length fc)%nat) by (apply nth_error_Some; congruence).
  destruct (LabelFacts.labeled_image_spec fc labels h w Hne Hlab)
    as (img & Himg & _ & _ & Hpix).
  destruct (Hpix y x Hy Hx) as (i' & l & row & [Hi' Hmin] & Hl & Hrow & Hrx).
  exists img, row. split; [exact Himg|]. split; [exact Hrow|].
  assert (Hd : dist_to (mk fc) (INR x, INR y) i = 0).
  { rewrite <- (nth_error_nth _ _ (0, 0) Hi). apply KDTreeFacts.dist_self. }
  specialize (Hmin i Hil). rewrite Hd in Hmin.
  pose proof (KDTreeFacts.norm_nonneg (sub_pt (nth i' (data (mk fc)) (0, 0)) (INR x, INR y))) as H0.
  assert (Hd' : dist_to (mk fc) (INR x, INR y) i' = 0) by (unfold dist_to in *; lra).
  apply dist_zero in Hd'.
  assert (Heq : i' = i).
  { apply (proj1 (NoDup_nth fc (0, 0)) Hnd); [exact Hi' | exact Hil|].
    transitivity (INR x, INR y); [exact Hd'|].
    symmetry. now apply nth_error_nth. }
  subst i'. now rewrite Hrx, Hl.
Qed.

Lemma pixel_on_point_gets_its_label_witness :
  exists img row,
    labeled_image line3 [7%Z; 8%Z; 9%Z] (2%nat, 3%nat) = Ok img /\
    nth_error img 0 = Some row /\
    nth_error row 1 = nth_error [7%Z; 8%Z; 9%Z] 1.
Proof.
  apply (pixel_on_point_gets_its_label line3 [7%Z; 8%Z; 9%Z] 2 3 1 1 0).
  - unfold line3.
    repeat constructor; simpl; intros H;
      repeat (destruct H as [H|H]; [injection H; intros; lra|]); exact H.
  - reflexivity.
  - lia.
  - lia.
  - reflexivity.
Defined.

(** ** The sub-image *)

Module CropFacts.

Lemma half_of_nat (m : nat) : (Z.of_nat m / 2)%Z = Z.of_nat (m / 2).
Proof. now rewrite Nat2Z.inj_div. Qed.

(** The stop bound: half the height plus 100, clipped to the width. *)
Lemma stop_bound h w :
  Py.slice_bound (Z.of_nat h / 2 + 100)%Z w = Nat.min (h / 2 + 100) w.
Proof.
  rewrite half_of_nat. unfold Py.slice_bound.
  destruct (Z.ltb_spec (Z.of_nat (h / 2) + 100) 0) as [Hneg|_]; [lia|].
  destruct (Z.ltb_spec (Z.of_nat (h / 2) + 100) 0) as [Hneg|_]; [lia|].
  f_equal. lia.
Qed.

(** The start bound: half the width minus 100; when that is negative it is
    counted from the right edge. *)
Lemma start_bound w :
  Py.slice_bound (Z.of_nat w / 2 - 100)%Z w =
  if (100 <=? w / 2)%nat then (w / 2 - 100)%nat else (w + w / 2 - 100)%nat.
Proof.
  rewrite half_of_nat. unfold Py.slice_bound.
  pose proof (Nat.div_mod_eq w 2) as Hdm.
  pose proof (Nat.mod_upper_bound w 2 ltac:(lia)) as Hub.
  destruct (Nat.leb_spec 100 (w / 2)) as [Hge|Hlt].
  - destruct (Z.ltb_spec (Z.of_nat (w / 2) - 100) 0) as [Hneg|_]; [lia|].
    destruct (Z.ltb_spec (Z.of_nat (w / 2) - 100) 0) as [Hneg|_]; [lia|]. lia.
  - destruct (Z.ltb_spec (Z.of_nat (w / 2) - 100) 0) as [_|Hpos]; [|lia].
    destruct (Z.ltb_spec (Z.of_nat (w / 2) - 100 + Z.of_nat w) 0) as [Hneg|Hpos]; lia.
Qed.

Lemma sub_image_rows {A : Type} (data : list (list A)) h w :
  length data = h -> (1 <= h)%nat ->
  Forall (fun row => length row = w) data ->
  let lo := if (100 <=? w / 2)%nat then (w / 2 - 100)%nat else (w + w / 2 - 100)%nat in
  let hi := Nat.min (h / 2 + 100) w in
  sub_image data = map (fun row => firstn (hi - lo) (skipn lo row)) data /\
  shape (sub_image data) = (h, (hi - lo)%nat).
Proof.
  intros Hh H1 Hw lo hi.
  assert (Hshape : shape data = (h, w)).
  { unfold shape. destruct data as [|r0 rest]; [simpl in Hh; lia|].
    inversion Hw; subst. reflexivity. }
  assert (Heq : sub_image data = map (fun row => firstn (hi - lo) (skipn lo row)) data).
  { unfold sub_image. rewrite Hshape. cbn [fst snd].
    apply map_ext_in. intros row Hrow.
    rewrite Forall_forall in Hw. specialize (Hw row Hrow).
    unfold Py.slice. rewrite Hw, stop_bound, start_bound. reflexivity. }
  split; [exact Heq|].
  rewrite Heq. unfold shape. rewrite length_map, Hh. f_equal.
  destruct data as [|r0 rest]; [simpl in Hh; lia|].
  cbn [map]. inversion Hw as [|? ? Hr0 _]; subst.
  rewrite length_firstn, length_skipn.
  pose proof (Nat.div_mod_eq (length r0) 2) as Hdm.
  pose proof (Nat.mod_upper_bound (length r0) 2 ltac:(lia)) as Hub.
  unfold lo, hi. destruct (Nat.leb_spec 100 (length r0 / 2)); lia.
Qed.

End CropFacts.

(** X15.  The sub-image keeps every row.  Its columns run from half the
    width minus 100 (counted from the right edge when that is negative) up
    to half the HEIGHT plus 100, clipped to the width. *)
Theorem sub_image_window {A : Type} (data : list (list A)) h w :
  length data = h -> (1 <= h)%nat ->
  Forall (fun row => length row = w) data ->
  let lo := if (100 <=? w / 2)%nat then (w / 2 - 100)%nat else (w + w / 2 - 100)%nat in
  let hi := Nat.min (h / 2 + 100) w in
  sub_image data = map (fun row => firstn (hi - lo) (skipn lo row)) data /\
  shape (sub_image data) = (h, (hi - lo)%nat).
Proof. apply CropFacts.sub_image_rows. Qed.

(** X16.  For a square image of side 200 or more the sub-image is the full
    height and exactly the 200 columns around the middle column. *)
Theorem sub_image_square {A : Type} (data : list (list A)) s :
  length data = s -> (200 <= s)%nat ->
  Forall (fun row => length row = s) data ->
  sub_image data = map (fun row => firstn 200 (skipn (s / 2 - 100) row)) data /\
  shape (sub_image data) = (s, 200%nat).
Proof.
  intros Hs H200 Hw.
  destruct (CropFacts.sub_image_rows data s s Hs ltac:(lia) Hw) as [Heq Hshape].
  cbn zeta in *.
  pose proof (Nat.div_mod_eq s 2) as Hdm.
  pose proof (Nat.mod_upper_bound s 2 ltac:(lia)) as Hub.
  replace (100 <=? s / 2)%nat with true in * by (symmetry; apply Nat.leb_le; lia).
  replace (Nat.min (s / 2 + 100) s - (s / 2 - 100))%nat with 200%nat in * by lia.
  split; assumption.
Qed.

Lemma blank_image_shape h w :
  length (blank_image h w) = h /\
  Forall (fun row => length row = w) (blank_image h w).
Proof.
  unfold blank_image. split; [apply repeat_length|].
  apply Forall_forall. intros row Hrow. apply repeat_spec in Hrow. subst row.
  apply repeat_length.
Qed.

(** A narrow image, 4 rows of 100 columns: the window starts at column 50,
    counted from the right edge, and ends at the width. *)
Lemma sub_image_window_witness :
  sub_image (blank_image 4 100) =
    map (fun row => firstn 50 (skipn 50 row)) (blank_image 4 100) /\
  shape (sub_image (blank_image 4 100)) = (4%nat, 50%nat).
Proof.
  destruct (blank_image_shape 4 100) as [Hh Hw].
  exact (sub_image_window (blank_image 4 100) 4 100 Hh ltac:(lia) Hw).
Defined.

(** A square image of side 200. *)
Lemma sub_image_square_witness :
  sub_image (blank_image 200 200) =
    map (fun row => firstn 200 (skipn (200 / 2 - 100) row)) (blank_image 200 200) /\
  shape (sub_image (blank_image 200 200)) = (200%nat, 200%nat).
Proof.
  destruct (blank_image_shape 200 200) as [Hh Hw].
  exact (sub_image_square (blank_image 200 200) 200 Hh ltac:(lia) Hw).
Defined.

(** ** Moving all points by one vector *)

Module ShiftFacts.

Lemma sub_pt_shift t a b : sub_pt (shift t a) (shift t b) = sub_pt a b.
Proof. unfold sub_pt, shift. simpl. f_equal; ring. Qed.

Lemma nth_shift t coordinates j :
  (j < length coordinates)%nat ->
  nth j (map (shift t) coordinates) (0, 0) = shift t (nth j coordinates (0, 0)).
Proof.
  intros Hj. rewrite (nth_indep _ (0, 0) (shift t (0, 0))) by (now rewrite length_map).
  apply map_nth.
Qed.

Lemma dist_to_shift t coordinates x j :
  (j < length coordinates)%nat ->
  dist_to (mk (map (shift t) coordinates)) (shift t x) j =
  dist_to (mk coordinates) x j.
Proof.
  intros Hj. unfold dist_to. cbn [data]. now rewrite nth_shift, sub_pt_shift.
Qed.

Lemma insert_by_ext key key' j l :
  key j = key' j -> (forall a, In a l -> key a = key' a) ->
  insert_by key j l = insert_by key' j l.
Proof.
  intros Hj. induction l as [|h tl IH]; intros Hl; simpl; [reflexivity|].
  rewrite Hj, (Hl h (or_introl eq_refl)).
  destruct (Rle_dec (key' j) (key' h)); [reflexivity|].
  f_equal. apply IH. intros a Ha. apply Hl. now right.
Qed.

Lemma sort_by_ext key key' l :
  (forall a, In a l -> key a = key' a) -> sort_by key l = sort_by key' l.
Proof.
  induction l as [|h tl IH]; intros Hl; simpl; [reflexivity|].
  fold (sort_by key tl) (sort_by key' tl).
  rewrite IH by (intros a Ha; apply Hl; now right).
  apply insert_by_ext; [apply Hl; now left|].
  intros a Ha. apply KDTreeFacts.sort_by_In in Ha. apply Hl. now right.
Qed.

Lemma query_row_shift t coordinates k ub x :
  query_row (mk (map (shift t) coordinates)) k ub (shift t x) =
  query_row (mk coordinates) k ub x.
Proof.
  unfold query_row.
  assert (Hc : candidates (mk (map (shift t) coordinates)) ub (shift t x) =
               candidates (mk coordinates) ub x).
  { unfold candidates, n. cbn [data]. rewrite length_map.
    apply filter_ext_in. intros j Hj. apply in_seq in Hj.
    now rewrite dist_to_shift by lia. }
  rewrite Hc.
  rewrite (sort_by_ext (dist_to (mk (map (shift t) coordinates)) (shift t x))
                       (dist_to (mk coordinates) x)).
  - unfold n. cbn [data]. now rewrite length_map.
  - intros j Hj. apply KDTreeFacts.candidates_lt in Hj. now apply dist_to_shift.
Qed.

Lemma take_map {A B : Type} (f : A -> B) (arr : list A) (idx : list nat) :
  Np.take (map f arr) idx =
  match Np.take arr idx with
  | Ok vals => Ok (map f vals)
  | Raise e => Raise e
  end.
Proof.
  unfold Np.take. induction idx as [|j tl IH]; simpl; [reflexivity|].
  rewrite nth_error_map. destruct (nth_error arr j); simpl; [|reflexivity].
  rewrite IH. clear IH.
  destruct (mapM (fun j => match nth_error arr j with
                           | Some a => Ok a
                           | None => Raise IndexError
                           end) tl); reflexivity.
Qed.

Lemma nn_row_shift t coordinates i nns :
  (i < length coordinates)%nat ->
  nn_row (map (shift t) coordinates) i nns = nn_row coordinates i nns.
Proof.
  intros Hi. unfold nn_row, drop_sentinel. rewrite length_map, take_map.
  destruct (Np.take coordinates _) as [vals|e]; [|reflexivity].
  assert (Hdv : map (fun q => sub_pt q (nth i (map (shift t) coordinates) (0, 0)))
                    (map (shift t) vals) =
                map (fun q => sub_pt q (nth i coordinates (0, 0))) vals).
  { rewrite map_map. apply map_ext. intros q.
    rewrite nth_shift by exact Hi. apply sub_pt_shift. }
  cbv zeta. cbn [bind]. rewrite Hdv. reflexivity.
Qed.

Lemma mapM_ext_in {A B : Type} (f g : A -> result B) (l : list A) :
  (forall a, In a l -> f a = g a) -> mapM f l = mapM g l.
Proof.
  induction l as [|a tl IH]; intros H; simpl; [reflexivity|].
  rewrite (H a (or_introl eq_refl)).
  rewrite IH by (intros b Hb; apply H; now right). reflexivity.
Qed.

Lemma get_nn_features_shift t coordinates r k :
  get_nn_features (mk (map (shift t) coordinates)) (map (shift t) coordinates) r k =
  get_nn_features (mk coordinates) coordinates r k.
Proof.
  destruct k as [|[|k]]; [reflexivity | reflexivity |].
  rewrite !get_nn_features_unfold by lia.
  rewrite (map_map (shift t)).
  rewrite (map_ext (fun x => query_row (mk (map (shift t) coordinates)) (S (S k))
                                       (Some r) (shift t x))
                   (query_row (mk coordinates) (S (S k)) (Some r)))
    by (intros x; apply query_row_shift).
  apply mapM_ext_in. intros [i nns] Hin.
  apply In_nth_error in Hin. destruct Hin as [q Hq].
  apply loop_element in Hq. destruct Hq as (-> & Hi & _).
  now apply nn_row_shift.
Qed.

End ShiftFacts.

(** X17.  Moving every point by the same vector changes nothing: the
    feature array, or the exception, is the same (in exact arithmetic). *)
Theorem features_translation_invariant t coordinates r k :
  get_nn_features (mk (map (shift t) coordinates)) (map (shift t) coordinates) r k =
  get_nn_features (mk coordinates) coordinates r k.
Proof. apply ShiftFacts.get_nn_features_shift. Qed.
